(** * FLAMES: the letter-cancelling matcher and the counting-out eliminator

    A shallow embedding of [app.py].  Python strings are sequences of code
    points, lists are [list], in-place item updates are stdpp's list insert
    guarded by the bounds check that raises [IndexError] in Python, and the
    [while] loop of the eliminator is driven by an explicit fuel argument.

    The Streamlit calls ([st.markdown], placeholders, [time.sleep], the CSV
    append) only write to the page or to disk and never feed a value back
    into the computation.  The first definitions of each function leave them
    out, the counting animation included (the [for num in range(1, count + 1)]
    loop inside the eliminator, whose body only renders a frame and sleeps).
    The part on what the page draws follows the same code once more and
    collects the texts written to the placeholders. *)

From Stdlib Require Import Ascii String.
From stdpp Require Import base numbers list strings gmap sorting pretty.

Local Open Scope Z_scope.

(** ** Exceptions and loop fuel *)

Inductive error : Type :=
  | IndexError
  | OutOfFuel.

Inductive result (A : Type) : Type :=
  | Ok (a : A)
  | Err (e : error).

Arguments Ok {A} a.
Arguments Err {A} e.

#[global] Instance result_ret : MRet result := λ A a, Ok a.

#[global] Instance result_bind : MBind result := λ A B f m,
  match m with
  | Ok a => f a
  | Err e => Err e
  end.

(** ** Python list operations *)

Module Py.

Section ListOps.
Context {A : Type}.

(** [l[i]] for an index that is a natural number. *)
Definition getitem (l : list A) (i : nat) : result A :=
  match l !! i with
  | Some x => Ok x
  | None => Err IndexError
  end.

(** [l[i] = x] for an index that is a natural number. *)
Definition setitem (l : list A) (i : nat) (x : A) : result (list A) :=
  if decide (i < length l)%nat then Ok (<[i:=x]> l) else Err IndexError.

(** The position an integer index denotes in a list of length [len]:
    negative indices count from the end, anything else out of range
    raises. *)
Definition item_index (len : nat) (i : Z) : result nat :=
  let i' := if decide (i < 0) then i + Z.of_nat len else i in
  if decide (0 ≤ i' < Z.of_nat len) then Ok (Z.to_nat i') else Err IndexError.

(** [l.pop(i)]: the removed item and the list without it. *)
Definition pop (l : list A) (i : Z) : result (A * list A) :=
  k ← item_index (length l) i;
  x ← getitem l k;
  Ok (x, delete k l).

(** The clamped bound of a slice [l[i:]] or [l[:i]]. *)
Definition slice_bound (len : nat) (i : Z) : nat :=
  Z.to_nat (if decide (i < 0) then Z.max 0 (i + Z.of_nat len) else Z.min i (Z.of_nat len)).

(** [l[i:]] *)
Definition slice_from (l : list A) (i : Z) : list A :=
  drop (slice_bound (length l) i) l.

(** [l[:i]] *)
Definition slice_to (l : list A) (i : Z) : list A :=
  take (slice_bound (length l) i) l.

(** [enumerate(l)], and its tail starting at position [k]. *)
Fixpoint enumerate_from (k : nat) (l : list A) : list (nat * A) :=
  match l with
  | [] => []
  | x :: l' => (k, x) :: enumerate_from (S k) l'
  end.

Definition enumerate (l : list A) : list (nat * A) := enumerate_from 0 l.

End ListOps.

End Py.

(** ** The eliminator: [eliminate_flames_animation] *)

Definition FLAMES : list ascii := list_ascii_of_string "FLAMES".

(** [index = (count - 1) % n].  Python's [%] takes the sign of the divisor,
    as [Z.modulo] does. *)
Definition removal_index (count : Z) (n : nat) : Z := (count - 1) `mod` Z.of_nat n.

(** One iteration of the [while] loop: pop the letter at [index], append it
    to [steps], and rotate what is left so that counting resumes right
    after the removed position. *)
Definition loop_body (count : Z) (flames steps : list ascii)
  : result (list ascii * list ascii) :=
  let n := length flames in
  let index := removal_index count n in
  '(removed_char, flames) ← Py.pop flames index;
  let steps := steps ++ [removed_char] in
  let flames :=
    if decide (0 < length flames)%nat
    then Py.slice_from flames index ++ Py.slice_to flames index
    else flames in
  Ok (flames, steps).

(** [while len(flames) > 1: ...] *)
Fixpoint while_loop (fuel : nat) (count : Z) (flames steps : list ascii)
  : result (list ascii * list ascii) :=
  if decide (1 < length flames)%nat then
    match fuel with
    | O => Err OutOfFuel
    | S fuel' =>
        '(flames', steps') ← loop_body count flames steps;
        while_loop fuel' count flames' steps'
    end
  else Ok (flames, steps).

Definition eliminate_flames_animation (fuel : nat) (count : Z)
  : result (ascii * list ascii) :=
  '(flames, steps) ← while_loop fuel count FLAMES [];
  final ← Py.getitem flames 0%nat;
  Ok (final, steps).

(** ** The result table: [map_result] *)

Definition mapping : gmap ascii (string * string * string) :=
  list_to_map
    [ ("F"%char, ("Friends", "🥳", "Just buddies… or is that what you're telling everyone?"));
      ("L"%char, ("Love", "❤️", "Oooh — love is in the air!"));
      ("A"%char, ("Affection", "😊", "Warm fuzzy vibes incoming."));
      ("M"%char, ("Marriage", "💍", "Better start planning the guest list!"));
      ("E"%char, ("Enemies", "😈", "Mortal Kombat theme starts playing..."));
      ("S"%char, ("Siblings", "👯", "Sibling energy: eternal teasing.")) ].

Definition map_result (letter : ascii) : string * string * string :=
  default ("Unknown", EmptyString, EmptyString) (mapping !! letter).

(** ** The matcher: [find_common_pairs] *)

(** The three locals of [find_common_pairs] that the loops update. *)
Record match_state : Type := MatchState {
  st_removed_a : list bool;
  st_removed_b : list bool;
  st_pairs : list (nat * nat)
}.

Section Matcher.
Context {char : Type} `{EqDecision char}.

(** The inner [for j, ch2 in enumerate(b_chars)] loop, run over what is
    left of the enumeration; the first hit marks both letters, records
    the pair and breaks. *)
Fixpoint scan_b (i : nat) (ch : char) (jb : list (nat * char))
    (st : match_state) : result match_state :=
  match jb with
  | [] => Ok st
  | (j, ch2) :: rest =>
      rbj ← Py.getitem (st_removed_b st) j;
      if negb rbj && bool_decide (ch = ch2) then
        ra ← Py.setitem (st_removed_a st) i true;
        rb ← Py.setitem (st_removed_b st) j true;
        Ok (MatchState ra rb (st_pairs st ++ [(i, j)]))
      else scan_b i ch rest st
  end.

(** The outer [for i, ch in enumerate(a_chars)] loop. *)
Fixpoint scan_a (ia : list (nat * char)) (b_chars : list char)
    (st : match_state) : result match_state :=
  match ia with
  | [] => Ok st
  | (i, ch) :: rest =>
      st' ← scan_b i ch (Py.enumerate b_chars) st;
      scan_a rest b_chars st'
  end.

Definition find_common_pairs (a_chars b_chars : list char)
  : result (list (nat * nat) * list bool * list bool) :=
  let removed_a := replicate (length a_chars) false in
  let removed_b := replicate (length b_chars) false in
  st ← scan_a (Py.enumerate a_chars) b_chars (MatchState removed_a removed_b []);
  Ok (st_pairs st, st_removed_a st, st_removed_b st).

End Matcher.

(** [sum(1 for x in removed if not x)] *)
Definition count_unremoved (removed : list bool) : nat :=
  length (filter (λ x, negb x) removed).

(** The [for i, j in pairs] loop of the page, which marks every pair once
    more while it redraws the two names. *)
Fixpoint animate_crosses (ps : list (nat * nat)) (removed_a removed_b : list bool)
  : result (list bool * list bool) :=
  match ps with
  | [] => Ok (removed_a, removed_b)
  | (i, j) :: rest =>
      removed_a ← Py.setitem removed_a i true;
      removed_b ← Py.setitem removed_b j true;
      animate_crosses rest removed_a removed_b
  end.

(** ** The normalizer: [sanitize] *)

(** What [sanitize] takes from the interpreter: equality of characters,
    [str.lower] on a whole string (it is not letter-by-letter in general)
    and [str.isalpha] on a one-character string. *)
Class PyStr (char : Type) : Type := {
  char_eq_dec :: EqDecision char;
  str_lower : list char → list char;
  isalpha : char → bool
}.

Definition sanitize `{PyStr char} (name : list char) : list char :=
  filter (λ ch, isalpha ch) (str_lower name).

(** The code points U+0000 to U+00FF, held in [ascii] by their number, with
    the interpreter's two tables on that range.  [str.isalpha] holds of the
    letters A-Z (65-90) and a-z (97-122), of the ordinal indicators and the
    micro sign (170, 186, 181), and of the accented letters 192-214, 216-246
    and 248-255; the multiplication and division signs (215, 247) are not
    letters.  [str.lower] adds 32 to A-Z and to the capitals 192-214 and
    216-222, leaves every other character alone, and is letter-by-letter on
    this range. *)
Module Latin1.

Definition between (lo hi n : N) : bool := ((lo <=? n) && (n <=? hi))%N.

Definition isalpha (c : ascii) : bool :=
  let n := N_of_ascii c in
  between 65 90 n || between 97 122 n
  || (n =? 170)%N || (n =? 181)%N || (n =? 186)%N
  || between 192 214 n || between 216 246 n || between 248 255 n.

Definition lower (c : ascii) : ascii :=
  let n := N_of_ascii c in
  if between 65 90 n || between 192 214 n || between 216 222 n
  then ascii_of_N (n + 32) else c.

#[global] Instance py_str : PyStr ascii := Build_PyStr ascii _ (map lower) isalpha.

(** The characters of ASCII, and the letters a to z. *)
Definition is_ascii (c : ascii) : bool := (N_of_ascii c <? 128)%N.
Definition is_a_z (c : ascii) : bool := between 97 122 (N_of_ascii c).

End Latin1.

(** ** The page: what runs once the form is submitted *)

Record session : Type := Session {
  remaining_count : nat;
  elimination_order : list ascii;
  result_letter : ascii;
  result_word : string;
  result_emoji : string;
  result_line : string
}.

Inductive outcome : Type :=
  | InvalidInput
  | Shown (s : session).

(** Step 1 of the page: match, redraw, and count what is left. *)
Definition remaining_after_crossing `{EqDecision char} (a_chars b_chars : list char)
  : result nat :=
  '(pairs, removed_a, removed_b) ← find_common_pairs a_chars b_chars;
  '(removed_a, removed_b) ← animate_crosses pairs removed_a removed_b;
  let remaining := (count_unremoved removed_a + count_unremoved removed_b)%nat in
  Ok remaining.

Definition run_submitted `{PyStr char} (fuel : nat) (name1 name2 : list char)
  : result outcome :=
  let s1 := sanitize name1 in
  let s2 := sanitize name2 in
  if bool_decide (s1 = []) || bool_decide (s2 = []) then Ok InvalidInput
  else
    let a_chars := s1 in
    let b_chars := s2 in
    remaining ← remaining_after_crossing a_chars b_chars;
    '(final_letter, elimination_steps) ←
        eliminate_flames_animation fuel (Z.of_nat remaining);
    let '(title, emoji, one_liner) := map_result final_letter in
    Ok (Shown (Session remaining elimination_steps final_letter title emoji one_liner)).

(** ** The counting-out game as the specification words it *)

(** One removal: with [n] letters in the working sequence, the letter at
    index [(N - 1) mod n] leaves, joins the eliminated letters, and the
    working sequence restarts at the letter that followed it, wrapping. *)
Inductive spec_step (N : Z)
  : list ascii * list ascii → list ascii * list ascii → Prop :=
  | spec_remove before x after eliminated :
      (1 < length (before ++ x :: after))%nat →
      Z.of_nat (length before)
        = (N - 1) `mod` Z.of_nat (length (before ++ x :: after)) →
      spec_step N (before ++ x :: after, eliminated)
                  (after ++ before, eliminated ++ [x]).

(** ** The matcher as the specification words it *)

Section MatcherSpec.
Context {char : Type} `{EqDecision char}.

(** [greedy A B i ps]: [ps] is the pairing after the first [i] letters of
    [A] have had their turn.  A letter is paired with the first equal
    letter of [B] that no earlier pair has taken, and stays unpaired when
    every equal letter of [B] is taken. *)
Inductive greedy (A B : list char) : nat → list (nat * nat) → Prop :=
  | greedy_start : greedy A B 0 []
  | greedy_pair i ch j ps :
      greedy A B i ps →
      A !! i = Some ch →
      B !! j = Some ch →
      j ∉ ps.*2 →
      (∀ j', (j' < j)%nat → B !! j' = Some ch → j' ∈ ps.*2) →
      greedy A B (S i) (ps ++ [(i, j)])
  | greedy_leave i ch ps :
      greedy A B i ps →
      A !! i = Some ch →
      (∀ j, B !! j = Some ch → j ∈ ps.*2) →
      greedy A B (S i) ps.

(** ** The loops of the matcher without their bounds checks *)

(** The first position of [b] that holds [ch] and is not yet removed. *)
Fixpoint first_free (ch : char) (b : list char) (removed : list bool)
  : option nat :=
  match b, removed with
  | ch2 :: b', r :: removed' =>
      if negb r && bool_decide (ch = ch2) then Some 0%nat
      else S <$> first_free ch b' removed'
  | _, _ => None
  end.

(** One turn of the outer loop. *)
Definition cross (i : nat) (ch : char) (b : list char) (st : match_state)
  : match_state :=
  match first_free ch b (st_removed_b st) with
  | Some j =>
      MatchState (<[i:=true]> (st_removed_a st)) (<[j:=true]> (st_removed_b st))
                 (st_pairs st ++ [(i, j)])
  | None => st
  end.

Fixpoint cross_all (i : nat) (a b : list char) (st : match_state)
  : match_state :=
  match a with
  | [] => st
  | ch :: a' => cross_all (S i) a' b (cross i ch b st)
  end.

(** The locals of [find_common_pairs] on entry. *)
Definition initial_state (a b : list char) : match_state :=
  MatchState (replicate (length a) false) (replicate (length b) false) [].

(** The letters of [l] whose flag is still [false]. *)
Fixpoint unmarked (l : list char) (removed : list bool) : list char :=
  match l, removed with
  | x :: l', r :: removed' =>
      if r then unmarked l' removed' else x :: unmarked l' removed'
  | _, _ => []
  end.

(** What holds of the three locals when [i] letters of [a] are done. *)
Record match_inv (a b : list char) (i : nat) (st : match_state) : Prop := {
  inv_len_a : length (st_removed_a st) = length a;
  inv_len_b : length (st_removed_b st) = length b;
  inv_greedy : greedy a b i (st_pairs st);
  inv_marks_a : ∀ k, st_removed_a st !! k = Some true ↔ k ∈ (st_pairs st).*1;
  inv_marks_b : ∀ j, st_removed_b st !! j = Some true ↔ j ∈ (st_pairs st).*2;
  inv_below : ∀ k, k ∈ (st_pairs st).*1 → (k < i)%nat;
  inv_nodup_a : NoDup (st_pairs st).*1;
  inv_nodup_b : NoDup (st_pairs st).*2;
  inv_count_a :
    (count_unremoved (st_removed_a st) + length (st_pairs st))%nat = length a;
  inv_count_b :
    (count_unremoved (st_removed_b st) + length (st_pairs st))%nat = length b
}.

(** How often the letter [c] occurs in [l]. *)
Definition occ (l : list char) (c : char) : nat :=
  count_occ (decide_rel (=)) l c.

(** The letters left over so far, counted letter by letter: of the first
    [i] letters of [a], those in excess of [b]; of [b], those in excess of
    the first [i] letters of [a]. *)
Definition count_inv (a b : list char) (i : nat) (st : match_state) : Prop :=
  ∀ c,
    occ (unmarked (take i a) (take i (st_removed_a st))) c
      = (occ (take i a) c - occ b c)%nat ∧
    occ (unmarked b (st_removed_b st)) c
      = (occ b c - occ (take i a) c)%nat.

End MatcherSpec.

(** ** What the page draws in its placeholders *)

(** The functions above return what the code returns.  The definitions of
    this part follow the same code once more and also collect, in order, the
    calls [placeholder.markdown(html, unsafe_allow_html=True)] that it makes.
    [time.sleep] and the calls on [st] itself (headings, the error box, the
    final banner) are not collected.  The names are sequences of [ascii], as
    in [Latin1]. *)

(** The five placeholders that the page creates with [st.empty()]. *)
Inductive placeholder : Type :=
  | name1_ph
  | name2_ph
  | caption_ph
  | flames_ph
  | caption2_ph.

(** One call of [markdown]: the placeholder and the text it is given. *)
Abbreviation ui_write := (placeholder * string)%type.

(** The one-character string that an f-string makes of a character. *)
Definition str (ch : ascii) : string := String ch EmptyString.

(** [build_display_html] *)
Definition build_display_html (chars : list ascii) (removed_flags : list bool)
  : string :=
  let bits :=
    (λ '(ch, rem),
       if rem : bool
       then "<span style='margin:6px; font-size:26px; font-family:monospace;'><s>"
            +:+ str ch +:+ "</s></span>"
       else "<span style='margin:6px; font-size:26px; font-family:monospace;'>"
            +:+ str ch +:+ "</span>")
    <$> zip chars removed_flags in
  "<div>" +:+ String.concat " " bits +:+ "</div>".

(** The list [display] of one counting frame: every letter of [flames], the
    one at [highlight_index] in a red span. *)
Definition frame_display (flames : list ascii) (highlight_index : Z)
  : list string :=
  (λ '(idx, ch),
     if decide (Z.of_nat idx = highlight_index)
     then "<span style='color:red; font-weight:bold;'>" +:+ str ch +:+ "</span>"
     else str ch)
  <$> Py.enumerate flames.

(** The text given to [flames_placeholder] for one frame. *)
Definition frame_html (display : list string) : string :=
  "<div style='font-family:monospace; font-size:28px;'>"
  +:+ String.concat " &nbsp; " display +:+ "</div>".

(** The text given to [caption_placeholder] when a letter is struck. *)
Definition strike_caption (removed_char : ascii) : string :=
  "Strike! Removed <b>" +:+ str removed_char +:+ "</b> ".

(** The body of [for num in range(1, count + 1)]. *)
Definition counting_frame (flames : list ascii) (n : nat) (num : Z)
    (flames_placeholder caption_placeholder : placeholder) : list ui_write :=
  let highlight_index := (num - 1) `mod` Z.of_nat n in
  let display := frame_display flames highlight_index in
  [ (flames_placeholder, frame_html display);
    (caption_placeholder, "Counting... <b>" +:+ pretty num +:+ "</b>") ].

(** [for num in range(1, count + 1): ...] *)
Definition counting_animation (count : Z) (flames : list ascii) (n : nat)
    (flames_placeholder caption_placeholder : placeholder) : list ui_write :=
  num ← seqZ 1 count;
  counting_frame flames n num flames_placeholder caption_placeholder.

(** One iteration of the [while] loop, with what it draws. *)
Definition loop_body_ui (count : Z) (flames steps : list ascii)
    (flames_placeholder caption_placeholder : placeholder)
  : result (list ascii * list ascii * list ui_write) :=
  let n := length flames in
  let index := removal_index count n in
  let counting :=
    counting_animation count flames n flames_placeholder caption_placeholder in
  '(removed_char, flames) ← Py.pop flames index;
  let steps := steps ++ [removed_char] in
  let strike := (caption_placeholder, strike_caption removed_char) in
  let flames :=
    if decide (0 < length flames)%nat
    then Py.slice_from flames index ++ Py.slice_to flames index
    else flames in
  Ok (flames, steps, counting ++ [strike]).

Fixpoint while_loop_ui (fuel : nat) (count : Z) (flames steps : list ascii)
    (flames_placeholder caption_placeholder : placeholder)
    (drawn : list ui_write)
  : result (list ascii * list ascii * list ui_write) :=
  if decide (1 < length flames)%nat then
    match fuel with
    | O => Err OutOfFuel
    | S fuel' =>
        '(flames', steps', round) ←
            loop_body_ui count flames steps flames_placeholder caption_placeholder;
        while_loop_ui fuel' count flames' steps'
                      flames_placeholder caption_placeholder (drawn ++ round)
    end
  else Ok (flames, steps, drawn).

Definition eliminate_flames_animation_ui (fuel : nat) (count : Z)
    (flames_placeholder caption_placeholder : placeholder)
  : result (ascii * list ascii * list ui_write) :=
  '(flames, steps, drawn) ←
      while_loop_ui fuel count FLAMES [] flames_placeholder caption_placeholder [];
  final ← Py.getitem flames 0%nat;
  Ok (final, steps, drawn).

(** What one turn of the [for i, j in pairs] loop draws. *)
Definition cross_frame (a_chars b_chars : list ascii)
    (removed_a removed_b : list bool) : list ui_write :=
  [ (caption_ph, "Ouch! There goes a common letter!");
    (name1_ph, build_display_html a_chars removed_a);
    (name2_ph, build_display_html b_chars removed_b) ].

(** The [for i, j in pairs] loop of the page, with what it draws. *)
Fixpoint animate_crosses_ui (ps : list (nat * nat)) (a_chars b_chars : list ascii)
    (removed_a removed_b : list bool)
  : result (list bool * list bool * list ui_write) :=
  match ps with
  | [] => Ok (removed_a, removed_b, [])
  | (i, j) :: rest =>
      removed_a ← Py.setitem removed_a i true;
      removed_b ← Py.setitem removed_b j true;
      '(removed_a', removed_b', drawn) ←
          animate_crosses_ui rest a_chars b_chars removed_a removed_b;
      Ok (removed_a', removed_b',
          cross_frame a_chars b_chars removed_a removed_b ++ drawn)
  end.

(** Step 1 of the page, with what it draws. *)
Definition remaining_after_crossing_ui (a_chars b_chars : list ascii)
  : result (nat * list ui_write) :=
  '(pairs, removed_a, removed_b) ← find_common_pairs a_chars b_chars;
  let initial :=
    [ (name1_ph, build_display_html a_chars (replicate (length a_chars) false));
      (name2_ph, build_display_html b_chars (replicate (length b_chars) false)) ] in
  '(removed_a, removed_b, crosses) ←
      animate_crosses_ui pairs a_chars b_chars removed_a removed_b;
  let remaining := (count_unremoved removed_a + count_unremoved removed_b)%nat in
  let caption :=
    (caption_ph, "Remaining letters after crossing: <b>" +:+ pretty remaining +:+ "</b>") in
  Ok (remaining, initial ++ crosses ++ [caption]).

(** The submitted branch of the page, with what it draws. *)
Definition run_submitted_ui (fuel : nat) (name1 name2 : list ascii)
  : result (outcome * list ui_write) :=
  let s1 := sanitize name1 in
  let s2 := sanitize name2 in
  if bool_decide (s1 = []) || bool_decide (s2 = []) then Ok (InvalidInput, [])
  else
    let a_chars := s1 in
    let b_chars := s2 in
    '(remaining, drawn1) ← remaining_after_crossing_ui a_chars b_chars;
    '(final_letter, elimination_steps, drawn2) ←
        eliminate_flames_animation_ui fuel (Z.of_nat remaining) flames_ph caption2_ph;
    let '(title, emoji, one_liner) := map_result final_letter in
    Ok (Shown (Session remaining elimination_steps final_letter title emoji one_liner),
        drawn1 ++ drawn2).

(** What one iteration of the eliminator's loop draws when it removes [x]:
    the counting frames over the working sequence of that round, then the
    strike caption of [x]. *)
Definition is_round (count : Z) (flames_placeholder caption_placeholder : placeholder)
    (x : ascii) (round : list ui_write) : Prop :=
  ∃ before after,
    Z.of_nat (length before)
      = removal_index count (length (before ++ x :: after)) ∧
    round
    = counting_animation count (before ++ x :: after)
        (length (before ++ x :: after)) flames_placeholder caption_placeholder
      ++ [(caption_placeholder, strike_caption x)].

(** One pass through the body of the [while] loop: it is taken when more
    than one letter is left, and leads from the working sequence and the
    removal list before it to those after it. *)
Definition loop_iteration (count : Z) (s t : list ascii * list ascii) : Prop :=
  (1 < length s.1)%nat ∧ loop_body count s.1 s.2 = Ok t.

(** [rounds_from count fp cp flames removed rounds final]: started on the
    working sequence [flames], the loop removes the letters [removed], one
    per round, draws [rounds], and stops on [final].  A round counts over the
    working sequence it starts with, strikes the letter at the removal index
    and goes on with the sequence rotated to the letter after it. *)
Inductive rounds_from (count : Z) (flames_placeholder caption_placeholder : placeholder)
  : list ascii → list ascii → list (list ui_write) → list ascii → Prop :=
  | rounds_done flames :
      (length flames ≤ 1)%nat →
      rounds_from count flames_placeholder caption_placeholder flames [] [] flames
  | rounds_next before x after removed rounds final :
      (1 < length (before ++ x :: after))%nat →
      Z.of_nat (length before)
        = removal_index count (length (before ++ x :: after)) →
      rounds_from count flames_placeholder caption_placeholder
                  (after ++ before) removed rounds final →
      rounds_from count flames_placeholder caption_placeholder
        (before ++ x :: after) (x :: removed)
        ((counting_animation count (before ++ x :: after)
            (length (before ++ x :: after)) flames_placeholder caption_placeholder
          ++ [(caption_placeholder, strike_caption x)]) :: rounds)
        final.

(** * Properties *)

(** ** Python list operations *)

Section ListFacts.
Context {A : Type}.
Implicit Types (l before after : list A) (x : A).

Lemma item_index_in_range (len : nat) (i : Z) :
  0 ≤ i < Z.of_nat len → Py.item_index len i = Ok (Z.to_nat i).
Proof.
  intros Hi. unfold Py.item_index.
  destruct (decide (i < 0)) as [?|_]; [lia|].
  destruct (decide (0 ≤ i < Z.of_nat len)); [done | contradiction].
Qed.

Lemma pop_middle before x after :
  Py.pop (before ++ x :: after) (Z.of_nat (length before))
  = Ok (x, before ++ after).
Proof.
  unfold Py.pop. rewrite item_index_in_range.
  2:{ rewrite length_app. simpl. lia. }
  rewrite Nat2Z.id. cbn. unfold Py.getitem.
  rewrite list_lookup_middle by done. cbn.
  by rewrite delete_middle.
Qed.

Lemma slice_bound_in_range (len : nat) (k : nat) :
  (k ≤ len)%nat → Py.slice_bound len (Z.of_nat k) = k.
Proof.
  intros Hk. unfold Py.slice_bound.
  destruct (decide (Z.of_nat k < 0)); lia.
Qed.

Lemma slice_from_app before after :
  Py.slice_from (before ++ after) (Z.of_nat (length before)) = after.
Proof.
  unfold Py.slice_from. rewrite slice_bound_in_range.
  - by rewrite drop_app_length.
  - rewrite length_app. lia.
Qed.

Lemma slice_to_app before after :
  Py.slice_to (before ++ after) (Z.of_nat (length before)) = before.
Proof.
  unfold Py.slice_to. rewrite slice_bound_in_range.
  - by rewrite take_app_length.
  - rewrite length_app. lia.
Qed.

Lemma split_at l (k : nat) :
  (k < length l)%nat →
  ∃ before x after, l = before ++ x :: after ∧ length before = k.
Proof.
  intros Hk. destruct (lookup_lt_is_Some_2 l k Hk) as [x Hx].
  exists (take k l), x, (drop (S k) l). split.
  - by rewrite take_drop_middle.
  - rewrite length_take. lia.
Qed.

End ListFacts.

(** ** The eliminator *)

Lemma removal_index_bound (count : Z) (n : nat) :
  (0 < n)%nat → 0 ≤ removal_index count n < Z.of_nat n.
Proof. intros Hn. unfold removal_index. apply Z.mod_pos_bound. lia. Qed.

(** An iteration of the loop on a sequence split at the removal index. *)
Lemma loop_body_split (count : Z) (before after steps : list ascii) (x : ascii) :
  removal_index count (length (before ++ x :: after)) = Z.of_nat (length before) →
  loop_body count (before ++ x :: after) steps = Ok (after ++ before, steps ++ [x]).
Proof.
  intros Hidx. unfold loop_body. rewrite Hidx, pop_middle. cbn.
  rewrite slice_from_app, slice_to_app.
  destruct (decide (0 < length (before ++ after))%nat) as [|Hlen]; [done|].
  assert (before ++ after = []) as Hnil by (apply length_zero_iff_nil; lia).
  apply app_eq_nil in Hnil as [-> ->]. done.
Qed.

(** Every sequence that still has a letter splits at its removal index. *)
Lemma removal_split (count : Z) (flames : list ascii) :
  (0 < length flames)%nat →
  ∃ before x after,
    flames = before ++ x :: after ∧
    Z.of_nat (length before) = removal_index count (length flames).
Proof.
  intros Hlen.
  pose proof (removal_index_bound count (length flames) Hlen) as Hb.
  destruct (split_at flames (Z.to_nat (removal_index count (length flames))))
    as (before & x & after & -> & Hk); [lia|].
  exists before, x, after. split; [done | lia].
Qed.

Lemma loop_body_removes_one (count : Z) (flames steps : list ascii) :
  (0 < length flames)%nat →
  ∃ x flames',
    loop_body count flames steps = Ok (flames', steps ++ [x]) ∧
    S (length flames') = length flames ∧
    x :: flames' ≡ₚ flames ∧
    ((1 < length flames)%nat →
     spec_step count (flames, steps) (flames', steps ++ [x])).
Proof.
  intros Hlen.
  destruct (removal_split count flames Hlen) as (before & x & after & -> & Hk).
  exists x, (after ++ before). split_and!.
  - by apply loop_body_split.
  - rewrite !length_app. simpl. lia.
  - rewrite (Permutation_app_comm after before). apply Permutation_middle.
  - intros Hlong. by constructor.
Qed.

(** The loop runs to a single letter whenever the fuel covers the letters
    still to be removed, and what it returns does not depend on the fuel. *)
Lemma while_loop_run (count : Z) (m : nat) :
  ∀ flames steps,
    length flames = S m →
    ∃ final steps',
      (∀ fuel, (m ≤ fuel)%nat →
         while_loop fuel count flames steps = Ok ([final], steps ++ steps')) ∧
      length steps' = m ∧
      final :: steps' ≡ₚ flames ∧
      rtc (spec_step count) (flames, steps) ([final], steps ++ steps').
Proof.
  induction m as [|m IH]; intros flames steps Hlen.
  - destruct flames as [|final [|? ?]]; simplify_eq/=.
    exists final, []. rewrite app_nil_r. split_and!; try done.
    intros fuel _. by destruct fuel.
  - destruct (loop_body_removes_one count flames steps)
      as (x & flames' & Hbody & Hlen' & Hperm & Hstep); [lia|].
    destruct (IH flames' (steps ++ [x])) as (final & steps' & Hrun & Hn & Hp & Hrtc);
      [lia|].
    exists final, (x :: steps'). rewrite <- (assoc_L (++) steps [x] steps') in *.
    split_and!.
    + intros [|fuel] Hfuel; [lia|]. simpl.
      destruct (decide (1 < length flames)%nat); [|lia].
      rewrite Hbody. cbn. apply Hrun. lia.
    + simpl. by rewrite Hn.
    + rewrite <- Hperm. rewrite <- Hp. apply perm_swap.
    + eapply rtc_l; [apply Hstep; lia | done].
Qed.

Lemma eliminate_run (count : Z) :
  ∃ final steps,
    (∀ fuel, (5 ≤ fuel)%nat →
       eliminate_flames_animation fuel count = Ok (final, steps)) ∧
    length steps = 5%nat ∧
    final :: steps ≡ₚ FLAMES ∧
    rtc (spec_step count) (FLAMES, []) ([final], steps).
Proof.
  destruct (while_loop_run count 5 FLAMES []) as (final & steps & Hrun & Hn & Hp & Hrtc);
    [done|].
  exists final, steps. split_and!; try done.
  intros fuel Hfuel. unfold eliminate_flames_animation.
  by rewrite (Hrun fuel Hfuel).
Qed.

(** The game of the specification has one move from each position and none
    from a single letter, so it has one outcome. *)
Lemma spec_step_deterministic (N : Z) s t1 t2 :
  spec_step N s t1 → spec_step N s t2 → t1 = t2.
Proof.
  intros H1 H2. destruct H1 as [before x after eliminated Hlen Hidx].
  inversion H2 as [before' x' after' eliminated' Hlen' Hidx' Hs Ht]; subst.
  rewrite Hs, <- Hidx in Hidx'.
  apply app_inj_1 in Hs as [-> Hs]; [|lia]. by simplify_eq.
Qed.

Lemma spec_step_needs_two (N : Z) s t :
  spec_step N s t → (1 < length s.1)%nat.
Proof. by intros []. Qed.

Lemma spec_run_unique (N : Z) s t1 t2 :
  rtc (spec_step N) s t1 → length t1.1 = 1%nat →
  rtc (spec_step N) s t2 → length t2.1 = 1%nat →
  t1 = t2.
Proof.
  intros Hrun1. revert t2.
  induction Hrun1 as [s|s u t1 Hstep Hrun1 IH]; intros t2 Hone1 Hrun2 Hone2.
  - destruct Hrun2 as [|s u t2 Hstep _]; [done|].
    apply spec_step_needs_two in Hstep. lia.
  - destruct Hrun2 as [|s u' t2 Hstep' Hrun2].
    + apply spec_step_needs_two in Hstep. lia.
    + rewrite (spec_step_deterministic N s u' u Hstep' Hstep) in Hrun2. by apply IH.
Qed.

(** C1: for every count N >= 1 the loop, started on F L A M E S, returns the
    letter and the removal order that the counting game of the specification
    reaches (remove index (N - 1) mod n, record it, restart after it, stop at
    one letter), that outcome is the only one the game has, and for N = 2 the
    first letter to go is the one at index 1, 'L'. *)
Theorem eliminator_plays_the_counting_game (N : Z) :
  1 ≤ N →
  ∃ final steps,
    (∀ fuel, (5 ≤ fuel)%nat →
       eliminate_flames_animation fuel N = Ok (final, steps)) ∧
    rtc (spec_step N) (FLAMES, []) ([final], steps) ∧
    (∀ work eliminated,
       rtc (spec_step N) (FLAMES, []) (work, eliminated) →
       length work = 1%nat → work = [final] ∧ eliminated = steps) ∧
    removal_index 2 (length FLAMES) = 1 ∧
    loop_body 2 FLAMES [] = Ok (list_ascii_of_string "AMESF", ["L"%char]) ∧
    eliminate_flames_animation 5 2
    = Ok ("E"%char, list_ascii_of_string "LMSAF").
Proof.
  intros _.
  destruct (eliminate_run N) as (final & steps & Hrun & _ & _ & Hrtc).
  exists final, steps. split_and!; try done.
  intros work eliminated Hgame Hone.
  pose proof (spec_run_unique N _ _ _ Hgame Hone Hrtc eq_refl) as Heq.
  by simplify_eq.
Qed.

Lemma eliminator_plays_the_counting_game_at_2 :
  ∃ final steps,
    (∀ fuel, (5 ≤ fuel)%nat →
       eliminate_flames_animation fuel 2 = Ok (final, steps)) ∧
    rtc (spec_step 2) (FLAMES, []) ([final], steps) ∧
    (∀ work eliminated,
       rtc (spec_step 2) (FLAMES, []) (work, eliminated) →
       length work = 1%nat → work = [final] ∧ eliminated = steps) ∧
    removal_index 2 (length FLAMES) = 1 ∧
    loop_body 2 FLAMES [] = Ok (list_ascii_of_string "AMESF", ["L"%char]) ∧
    eliminate_flames_animation 5 2
    = Ok ("E"%char, list_ascii_of_string "LMSAF").
Proof. apply (eliminator_plays_the_counting_game 2). lia. Defined.

Lemma removal_index_multiple (N : Z) (n : nat) :
  (0 < n)%nat → N `mod` Z.of_nat n = 0 →
  removal_index N n = Z.of_nat (n - 1).
Proof.
  intros Hn Hmod. unfold removal_index.
  apply Z.mod_divide in Hmod as [q ->]; [|lia].
  replace (q * Z.of_nat n - 1) with (Z.of_nat (n - 1) + (q - 1) * Z.of_nat n) by lia.
  rewrite Z_mod_plus_full. apply Z.mod_small. lia.
Qed.

(** C3: when the count N >= 1 is an exact multiple of the length n of the
    working sequence, the iteration removes the letter at the last position,
    index n - 1, which is not index 0; with N = 6 on F L A M E S the letter
    removed is 'S'. *)
Theorem exact_multiple_removes_last (N : Z) (flames steps : list ascii) :
  1 ≤ N →
  (1 < length flames)%nat →
  N `mod` Z.of_nat (length flames) = 0 →
  removal_index N (length flames) = Z.of_nat (length flames - 1) ∧
  removal_index N (length flames) ≠ 0 ∧
  (∃ before x,
     flames = before ++ [x] ∧
     loop_body N flames steps = Ok (before, steps ++ [x])) ∧
  loop_body 6 FLAMES [] = Ok (list_ascii_of_string "FLAME", ["S"%char]).
Proof.
  intros _ Hlen Hmod.
  pose proof (removal_index_multiple N (length flames)) as Hidx.
  rewrite Hidx by (done || lia). split_and!; [done | lia | | done].
  destruct (removal_split N flames) as (before & x & after & -> & Hk); [lia|].
  rewrite Hidx in Hk by (done || lia).
  rewrite length_app in Hk. simpl in Hk.
  destruct after as [|? ?]; [|simpl in Hk; lia].
  exists before, x. split; [done|].
  rewrite loop_body_split; [done|].
  rewrite Hidx by (done || lia). rewrite length_app. simpl. lia.
Qed.

Lemma exact_multiple_removes_last_at_6 :
  removal_index 6 (length FLAMES) = Z.of_nat (length FLAMES - 1) ∧
  removal_index 6 (length FLAMES) ≠ 0 ∧
  (∃ before x,
     FLAMES = before ++ [x] ∧
     loop_body 6 FLAMES [] = Ok (before, [] ++ [x])) ∧
  loop_body 6 FLAMES [] = Ok (list_ascii_of_string "FLAME", ["S"%char]).
Proof.
  apply (exact_multiple_removes_last 6 FLAMES []); [lia | simpl; lia | reflexivity].
Defined.

(** The loop takes one pass per letter to remove: with [m + 1] letters it
    makes exactly [m] passes, returns once the fuel covers them, and runs
    out of fuel otherwise. *)
Lemma while_loop_iterations (count : Z) (m : nat) :
  ∀ flames steps,
    length flames = S m →
    ∃ final steps',
      nsteps (loop_iteration count) m (flames, steps) ([final], steps ++ steps') ∧
      (∀ fuel, (m ≤ fuel)%nat →
         while_loop fuel count flames steps = Ok ([final], steps ++ steps')) ∧
      (∀ fuel, (fuel < m)%nat →
         while_loop fuel count flames steps = Err OutOfFuel).
Proof.
  induction m as [|m IH]; intros flames steps Hlen.
  - destruct flames as [|final [|? ?]]; simplify_eq/=.
    exists final, []. rewrite app_nil_r. split_and!.
    + constructor.
    + intros fuel _. by destruct fuel.
    + intros fuel Hfuel. lia.
  - destruct (loop_body_removes_one count flames steps)
      as (x & flames' & Hbody & Hlen' & _); [lia|].
    destruct (IH flames' (steps ++ [x])) as (final & steps' & Hn & Hrun & Hout);
      [lia|].
    exists final, (x :: steps'). rewrite <- (assoc_L (++) steps [x] steps') in *.
    split_and!.
    + eapply nsteps_l; [|done]. split; simpl; [lia | done].
    + intros [|fuel] Hfuel; [lia|]. simpl.
      destruct (decide (1 < length flames)%nat); [|lia].
      rewrite Hbody. cbn. apply Hrun. lia.
    + intros [|fuel] Hfuel; simpl;
        destruct (decide (1 < length flames)%nat); try lia; [done|].
      rewrite Hbody. cbn. apply Hout. lia.
Qed.

(** C9: for every count >= 0, zero included, the loop terminates after
    exactly five passes through its body: started on F L A M E S with nothing
    removed, five iterations lead to the single letter and the removal list
    that the function returns, it returns them with any fuel of five or more
    and runs out of fuel with less.  The letter is one of F L A M E S and the
    list holds the five others.  In every pass on a sequence that still has a
    letter the index (count - 1) mod n is in range, the letter at that index
    is the one removed and recorded, and the sequence that goes on, rotated
    to the letter after it, is one shorter.  Count 0 removes S, E, M, A, L
    and leaves F. *)
Theorem eliminator_terminates (count : Z) :
  0 ≤ count →
  (∃ final steps,
     (∀ fuel, (5 ≤ fuel)%nat →
        eliminate_flames_animation fuel count = Ok (final, steps)) ∧
     (∀ fuel, (fuel < 5)%nat →
        eliminate_flames_animation fuel count = Err OutOfFuel) ∧
     nsteps (loop_iteration count) 5 (FLAMES, []) ([final], steps) ∧
     final ∈ FLAMES ∧
     length steps = 5%nat ∧
     final :: steps ≡ₚ FLAMES) ∧
  (∀ flames steps,
     (0 < length flames)%nat →
     0 ≤ removal_index count (length flames) < Z.of_nat (length flames) ∧
     ∃ before x after,
       flames = before ++ x :: after ∧
       Z.of_nat (length before) = removal_index count (length flames) ∧
       loop_body count flames steps = Ok (after ++ before, steps ++ [x]) ∧
       S (length (after ++ before)) = length flames) ∧
  eliminate_flames_animation 5 0
  = Ok ("F"%char, list_ascii_of_string "SEMAL").
Proof.
  intros _. split_and!; [| |done].
  - destruct (while_loop_iterations count 5 FLAMES [])
      as (final & steps & Hn & Hrun & Hout); [done|].
    destruct (eliminate_run count) as (final' & steps' & Hrun' & Hlen & Hp & _).
    assert (final' = final ∧ steps' = steps) as [-> ->].
    { pose proof (Hrun' 5%nat (le_n _)) as E.
      unfold eliminate_flames_animation in E.
      rewrite (Hrun 5%nat (le_n _)) in E. cbn in E. by simplify_eq. }
    exists final, steps. split_and!; try done.
    + intros fuel Hfuel. unfold eliminate_flames_animation.
      by rewrite (Hout fuel Hfuel).
    + rewrite <- Hp. left.
  - intros flames steps Hlen. split; [by apply removal_index_bound|].
    destruct (removal_split count flames Hlen) as (before & x & after & -> & Hk).
    exists before, x, after. split_and!; [done..| |].
    + by apply loop_body_split.
    + rewrite !length_app. simpl. lia.
Qed.

Lemma eliminator_terminates_at_0 :
  (∃ final steps,
     (∀ fuel, (5 ≤ fuel)%nat →
        eliminate_flames_animation fuel 0 = Ok (final, steps)) ∧
     (∀ fuel, (fuel < 5)%nat →
        eliminate_flames_animation fuel 0 = Err OutOfFuel) ∧
     nsteps (loop_iteration 0) 5 (FLAMES, []) ([final], steps) ∧
     final ∈ FLAMES ∧
     length steps = 5%nat ∧
     final :: steps ≡ₚ FLAMES) ∧
  (∀ flames steps,
     (0 < length flames)%nat →
     0 ≤ removal_index 0 (length flames) < Z.of_nat (length flames) ∧
     ∃ before x after,
       flames = before ++ x :: after ∧
       Z.of_nat (length before) = removal_index 0 (length flames) ∧
       loop_body 0 flames steps = Ok (after ++ before, steps ++ [x]) ∧
       S (length (after ++ before)) = length flames) ∧
  eliminate_flames_animation 5 0
  = Ok ("F"%char, list_ascii_of_string "SEMAL").
Proof. apply (eliminator_terminates 0). lia. Defined.

(** ** The matcher never leaves the bounds of its lists *)

Section MatcherRuns.
Context {char : Type} `{EqDecision char}.
Implicit Types (a b : list char) (ch : char) (st : match_state).

Lemma scan_b_first_free i ch (bsuf : list char) :
  ∀ (j0 : nat) (rpre rsuf ra : list bool) ps,
    length rpre = j0 →
    length rsuf = length bsuf →
    (i < length ra)%nat →
    scan_b i ch (Py.enumerate_from j0 bsuf) (MatchState ra (rpre ++ rsuf) ps)
    = Ok (match first_free ch bsuf rsuf with
          | Some k =>
              MatchState (<[i:=true]> ra) (rpre ++ <[k:=true]> rsuf)
                         (ps ++ [(i, (j0 + k)%nat)])
          | None => MatchState ra (rpre ++ rsuf) ps
          end).
Proof.
  induction bsuf as [|ch2 bsuf IH]; intros j0 rpre rsuf ra ps Hpre Hsuf Hi.
  - by destruct rsuf.
  - destruct rsuf as [|r rsuf]; [done|]. simpl in Hsuf.
    cbn [scan_b Py.enumerate_from first_free st_removed_a st_removed_b st_pairs].
    unfold Py.getitem. rewrite list_lookup_middle by done. cbn.
    destruct (negb r && bool_decide (ch = ch2)) eqn:Hhit.
    + unfold Py.setitem.
      destruct (decide (i < length ra)%nat); [|lia]. cbn.
      destruct (decide (j0 < length (rpre ++ r :: rsuf))%nat) as [|Hout].
      2:{ rewrite length_app in Hout. simpl in Hout. lia. }
      cbn. rewrite Nat.add_0_r, <- Hpre.
      by rewrite insert_app_r_alt, Nat.sub_diag.
    + rewrite (cons_middle r rpre rsuf), (assoc_L (++)).
      rewrite (IH (S j0) (rpre ++ [r]) rsuf ra ps); [| |lia|done].
      2:{ rewrite length_app. simpl. lia. }
      destruct (first_free ch bsuf rsuf) as [k|]; cbn; [|done].
      rewrite <- (assoc_L (++)). simpl.
      by rewrite Nat.add_succ_r.
Qed.

Lemma scan_b_cross i ch b st :
  length (st_removed_b st) = length b →
  (i < length (st_removed_a st))%nat →
  scan_b i ch (Py.enumerate b) st = Ok (cross i ch b st).
Proof.
  intros Hb Hi. destruct st as [ra rb ps]. simpl in *.
  unfold Py.enumerate, cross. simpl.
  pose proof (scan_b_first_free i ch b 0 [] rb ra ps eq_refl Hb Hi) as Hrun.
  simpl in Hrun. rewrite Hrun.
  destruct (first_free ch b rb); by rewrite ?Nat.add_0_l.
Qed.

Lemma cross_length_a i ch b st :
  length (st_removed_a (cross i ch b st)) = length (st_removed_a st).
Proof.
  unfold cross. destruct (first_free _ _ _); simpl; [|done].
  by rewrite length_insert.
Qed.

Lemma cross_length_b i ch b st :
  length (st_removed_b (cross i ch b st)) = length (st_removed_b st).
Proof.
  unfold cross. destruct (first_free _ _ _); simpl; [|done].
  by rewrite length_insert.
Qed.

Lemma scan_a_cross_all (asuf : list char) b :
  ∀ (i0 : nat) st,
    length (st_removed_b st) = length b →
    (i0 + length asuf ≤ length (st_removed_a st))%nat →
    scan_a (Py.enumerate_from i0 asuf) b st = Ok (cross_all i0 asuf b st).
Proof.
  induction asuf as [|ch asuf IH]; intros i0 st Hb Ha; [done|].
  simpl in *. rewrite scan_b_cross by (done || lia). cbn.
  apply IH.
  - by rewrite cross_length_b.
  - rewrite cross_length_a. lia.
Qed.

Lemma find_common_pairs_total a b :
  find_common_pairs a b
  = Ok (st_pairs (cross_all 0 a b (initial_state a b)),
        st_removed_a (cross_all 0 a b (initial_state a b)),
        st_removed_b (cross_all 0 a b (initial_state a b))).
Proof.
  unfold find_common_pairs, Py.enumerate.
  rewrite scan_a_cross_all; [done| |]; simpl; by rewrite length_replicate.
Qed.

End MatcherRuns.

(** ** What the matcher keeps true from one letter to the next *)

Section MatcherInvariant.
Context {char : Type} `{EqDecision char}.
Implicit Types (a b : list char) (ch : char) (st : match_state).

Lemma first_free_Some ch b :
  ∀ (removed : list bool) (j : nat),
    first_free ch b removed = Some j →
    b !! j = Some ch ∧ removed !! j = Some false ∧
    ∀ j', (j' < j)%nat → b !! j' = Some ch → removed !! j' = Some true.
Proof.
  induction b as [|ch2 b IH]; intros [|r removed] j Hfree; try done.
  simpl in Hfree. destruct (negb r && bool_decide (ch = ch2)) eqn:Hhit.
  - apply andb_true_iff in Hhit as [Hr Heq%bool_decide_eq_true].
    simplify_eq. destruct r; [done|]. split_and!; [done..|]. intros; lia.
  - destruct (first_free ch b removed) as [k|] eqn:Hk; simplify_eq/=.
    destruct (IH removed k Hk) as (Hb & Hr & Hbefore). split_and!; [done..|].
    intros [|j'] Hlt Hj'; simpl in *.
    + simplify_eq. rewrite bool_decide_eq_true_2 in Hhit by done.
      by destruct r.
    + apply Hbefore; [lia | done].
Qed.

Lemma first_free_None ch b :
  ∀ (removed : list bool),
    first_free ch b removed = None →
    length removed = length b →
    ∀ j, b !! j = Some ch → removed !! j = Some true.
Proof.
  induction b as [|ch2 b IH]; intros [|r removed] Hfree Hlen j Hj; try done.
  simpl in Hfree. destruct (negb r && bool_decide (ch = ch2)) eqn:Hhit; [done|].
  destruct (first_free ch b removed) eqn:Hk; [done|].
  destruct j as [|j]; simpl in *.
  - simplify_eq. rewrite bool_decide_eq_true_2 in Hhit by done. by destruct r.
  - apply IH; [done | lia | done].
Qed.

Lemma count_unremoved_insert (removed : list bool) (i : nat) :
  removed !! i = Some false →
  S (count_unremoved (<[i:=true]> removed)) = count_unremoved removed.
Proof.
  unfold count_unremoved. revert i.
  induction removed as [|r removed IH]; intros [|i] Hi; simplify_eq/=; [done|].
  rewrite !filter_cons. destruct r; simpl; by rewrite <- (IH i Hi).
Qed.

Lemma count_unremoved_replicate (n : nat) :
  count_unremoved (replicate n false) = n.
Proof.
  unfold count_unremoved. induction n as [|n IH]; [done|].
  cbn [replicate]. rewrite filter_cons. simpl. by rewrite IH.
Qed.

Lemma match_inv_initial a b : match_inv a b 0 (initial_state a b).
Proof.
  split; simpl.
  - apply length_replicate.
  - apply length_replicate.
  - constructor.
  - intros k. split; [|by intros ?%elem_of_nil].
    by intros [? _]%lookup_replicate.
  - intros j. split; [|by intros ?%elem_of_nil].
    by intros [? _]%lookup_replicate.
  - by intros k ?%elem_of_nil.
  - constructor.
  - constructor.
  - rewrite count_unremoved_replicate. lia.
  - rewrite count_unremoved_replicate. lia.
Qed.

Lemma match_inv_cross a b i ch st :
  match_inv a b i st →
  a !! i = Some ch →
  match_inv a b (S i) (cross i ch b st).
Proof.
  intros [Hla Hlb Hgreedy Hma Hmb Hbelow Hnda Hndb Hca Hcb] Hi.
  destruct st as [ra rb ps]. simpl in *.
  assert (i < length ra)%nat as Hlt
    by (rewrite Hla; by eapply lookup_lt_Some).
  assert (i ∉ ps.*1) as Hfresh by (intros ?%Hbelow; lia).
  assert (ra !! i = Some false) as Hfalse.
  { destruct (lookup_lt_is_Some_2 ra i Hlt) as [[|] Hv]; [|done].
    by apply Hma in Hv. }
  unfold cross. simpl.
  destruct (first_free ch b rb) as [j|] eqn:Hfree.
  - destruct (first_free_Some ch b rb j Hfree) as (Hbj & Hrj & Hbefore).
    assert (j ∉ ps.*2) as Hjfresh.
    { intros Hin%Hmb. congruence. }
    split; simpl; rewrite ?length_insert, ?fmap_app, ?length_app; simpl.
    + done.
    + done.
    + eapply greedy_pair; try done.
      intros j' Hj' Hbj'. apply Hmb. by apply Hbefore.
    + intros k. rewrite elem_of_app, list_elem_of_singleton.
      destruct (decide (i = k)) as [->|Hne].
      * rewrite list_lookup_insert_eq by done. by intuition.
      * rewrite list_lookup_insert_ne by done. rewrite Hma.
        split; [by left | by intros [?|?]].
    + intros k. rewrite elem_of_app, list_elem_of_singleton.
      destruct (decide (j = k)) as [->|Hne].
      * rewrite list_lookup_insert_eq by (by eapply lookup_lt_Some).
        by intuition.
      * rewrite list_lookup_insert_ne by done. rewrite Hmb.
        split; [by left | by intros [?|?]].
    + intros k [Hk%Hbelow| ->%list_elem_of_singleton]%elem_of_app; lia.
    + apply NoDup_app. split_and!; [done| |apply NoDup_singleton].
      intros k Hk ->%list_elem_of_singleton. done.
    + apply NoDup_app. split_and!; [done| |apply NoDup_singleton].
      intros k Hk ->%list_elem_of_singleton. done.
    + pose proof (count_unremoved_insert ra i Hfalse). lia.
    + pose proof (count_unremoved_insert rb j Hrj). lia.
  - split; simpl; try done.
    + eapply greedy_leave; try done.
      intros j Hbj. apply Hmb. by eapply first_free_None.
    + intros k Hk%Hbelow. lia.
Qed.

Lemma match_inv_cross_all a b (asuf : list char) :
  ∀ i st,
    match_inv a b i st →
    drop i a = asuf →
    match_inv a b (i + length asuf) (cross_all i asuf b st).
Proof.
  induction asuf as [|ch asuf IH]; intros i st Hinv Hdrop; simpl.
  - by rewrite Nat.add_0_r.
  - assert (a !! i = Some ch) as Hi
      by (by rewrite <- (Nat.add_0_r i), <- lookup_drop, Hdrop).
    rewrite <- Nat.add_succ_comm. apply IH.
    + by apply match_inv_cross.
    + rewrite (drop_S a ch i Hi) in Hdrop. by simplify_eq.
Qed.

Lemma match_inv_final a b :
  match_inv a b (length a) (cross_all 0 a b (initial_state a b)).
Proof. apply (match_inv_cross_all a b a 0); [apply match_inv_initial | done]. Qed.

(** Redrawing the pairs marks letters that are marked already. *)
Lemma animate_crosses_same (ps : list (nat * nat)) (ra rb : list bool) :
  (∀ i j, (i, j) ∈ ps → ra !! i = Some true ∧ rb !! j = Some true) →
  animate_crosses ps ra rb = Ok (ra, rb).
Proof.
  induction ps as [|[i j] ps IH]; intros Hmarked; [done|]. simpl.
  destruct (Hmarked i j) as [Hi Hj]; [left|].
  unfold Py.setitem.
  destruct (decide (i < length ra)%nat) as [|Hout];
    [|by apply lookup_lt_Some in Hi]. cbn.
  destruct (decide (j < length rb)%nat) as [|Hout];
    [|by apply lookup_lt_Some in Hj]. cbn.
  rewrite !list_insert_id by done. apply IH.
  intros i' j' Hin. apply Hmarked. by right.
Qed.

End MatcherInvariant.

(** ** Counting the letters that are left *)

Section MatcherCounts.
Context {char : Type} {char_dec : EqDecision char}.
Implicit Types (a b l : list char) (c ch : char) (st : match_state).

Local Arguments occ : simpl never.

Lemma occ_cons l ch c :
  occ (ch :: l) c = ((if decide (ch = c) then 1 else 0) + occ l c)%nat.
Proof. unfold occ, decide, decide_rel. simpl. by destruct (char_dec ch c). Qed.

Lemma occ_snoc l ch c :
  occ (l ++ [ch]) c = (occ l c + (if decide (ch = c) then 1 else 0))%nat.
Proof.
  unfold occ, decide, decide_rel. rewrite count_occ_app. simpl.
  by destruct (char_dec ch c).
Qed.

Lemma unmarked_app l1 l2 (r1 r2 : list bool) :
  length l1 = length r1 →
  unmarked (l1 ++ l2) (r1 ++ r2) = unmarked l1 r1 ++ unmarked l2 r2.
Proof.
  revert r1. induction l1 as [|x l1 IH]; intros [|[|] r1] Hlen;
    simplify_eq/=; rewrite ?IH; done.
Qed.

Lemma length_unmarked l (removed : list bool) :
  length l = length removed →
  length (unmarked l removed) = count_unremoved removed.
Proof.
  unfold count_unremoved. revert removed.
  induction l as [|x l IH]; intros [|[|] removed] Hlen; simplify_eq/=;
    rewrite ?filter_cons; simpl; rewrite ?IH; done.
Qed.

Lemma first_free_Some_occ ch b :
  ∀ (removed : list bool) (j : nat) c,
    first_free ch b removed = Some j →
    (occ (unmarked b (<[j:=true]> removed)) c
     + (if decide (ch = c) then 1 else 0))%nat
    = occ (unmarked b removed) c.
Proof.
  induction b as [|ch2 b IH]; intros [|r removed] j c Hfree; try done.
  simpl in Hfree. destruct (negb r && bool_decide (ch = ch2)) eqn:Hhit.
  - apply andb_true_iff in Hhit as [Hr Heq%bool_decide_eq_true].
    simplify_eq. destruct r; [done|]. simpl. rewrite occ_cons. lia.
  - destruct (first_free ch b removed) as [k|] eqn:Hk; simplify_eq/=.
    specialize (IH removed k c Hk).
    destruct r; simpl; [done|]. rewrite !occ_cons. lia.
Qed.

Lemma first_free_None_occ ch b :
  ∀ (removed : list bool),
    first_free ch b removed = None → occ (unmarked b removed) ch = 0%nat.
Proof.
  induction b as [|ch2 b IH]; intros [|r removed] Hfree; try done.
  simpl in Hfree. destruct (negb r && bool_decide (ch = ch2)) eqn:Hhit; [done|].
  destruct (first_free ch b removed) eqn:Hk; [done|].
  specialize (IH removed Hk). destruct r; simpl; [done|].
  rewrite occ_cons. simpl in Hhit.
  apply bool_decide_eq_false in Hhit.
  destruct (decide (ch2 = ch)); [by subst | lia].
Qed.

Lemma count_inv_initial a b : count_inv a b 0 (initial_state a b).
Proof.
  intros c. simpl. split; [done|].
  rewrite Nat.sub_0_r. f_equal.
  induction b as [|x b IH]; simpl; by rewrite ?IH.
Qed.

Lemma count_inv_cross a b i ch st :
  match_inv a b i st →
  count_inv a b i st →
  a !! i = Some ch →
  count_inv a b (S i) (cross i ch b st).
Proof.
  intros Hinv Hcount Hi c. destruct (Hcount c) as [Ha Hb].
  destruct Hinv as [Hla Hlb _ Hma _ Hbelow _ _ _ _].
  destruct st as [ra rb ps]. simpl in *.
  assert (i < length a)%nat as Hlt by (by eapply lookup_lt_Some).
  assert (ra !! i = Some false) as Hfalse.
  { destruct (lookup_lt_is_Some_2 ra i) as [[|] Hv]; [lia| |done].
    apply Hma, Hbelow in Hv. lia. }
  assert (length (take i a) = length (take i ra)) as Hlen
    by (rewrite !length_take; lia).
  rewrite (take_S_r a i ch Hi), occ_snoc.
  unfold cross. simpl.
  destruct (first_free ch b rb) as [j|] eqn:Hfree; simpl.
  - pose proof (first_free_Some_occ ch b rb j c Hfree) as Hj.
    rewrite (take_S_r _ i true) by (by apply list_lookup_insert_eq; lia).
    rewrite take_insert_ge by done.
    rewrite unmarked_app by done. simpl. rewrite app_nil_r.
    destruct (decide (ch = c)); lia.
  - pose proof (first_free_None_occ ch b rb Hfree) as Hnone.
    rewrite (take_S_r _ i false) by done.
    rewrite unmarked_app by done. simpl. rewrite occ_snoc.
    destruct (decide (ch = c)) as [->|]; lia.
Qed.

Lemma count_inv_cross_all a b (asuf : list char) :
  ∀ i st,
    match_inv a b i st →
    count_inv a b i st →
    drop i a = asuf →
    count_inv a b (i + length asuf) (cross_all i asuf b st).
Proof.
  induction asuf as [|ch asuf IH]; intros i st Hinv Hcount Hdrop; simpl.
  - by rewrite Nat.add_0_r.
  - assert (a !! i = Some ch) as Hi
      by (by rewrite <- (Nat.add_0_r i), <- lookup_drop, Hdrop).
    rewrite <- Nat.add_succ_comm. apply IH.
    + by apply match_inv_cross.
    + by apply count_inv_cross.
    + rewrite (drop_S a ch i Hi) in Hdrop. by simplify_eq.
Qed.

(** When the matcher returns, the unmarked letters of each name are its
    letters in excess of the other name. *)
Lemma find_common_pairs_excess a b :
  ∃ ps ra rb,
    find_common_pairs a b = Ok (ps, ra, rb) ∧
    match_inv a b (length a) (MatchState ra rb ps) ∧
    ∀ c,
      occ (unmarked a ra) c = (occ a c - occ b c)%nat ∧
      occ (unmarked b rb) c = (occ b c - occ a c)%nat.
Proof.
  pose proof (match_inv_final a b) as Hinv.
  pose proof (count_inv_cross_all a b a 0 _ (match_inv_initial a b)
                (count_inv_initial a b) eq_refl) as Hcount.
  simpl in Hcount.
  destruct (cross_all 0 a b (initial_state a b)) as [ra rb ps] eqn:Hst.
  exists ps, ra, rb. split_and!.
  - by rewrite find_common_pairs_total, Hst.
  - done.
  - intros c. destruct (Hcount c) as [Ha Hb]. simpl in *.
    pose proof (inv_len_a _ _ _ _ Hinv) as Hlen. simpl in Hlen.
    rewrite (take_ge a) in Ha, Hb by done.
    rewrite (take_ge ra) in Ha by lia. done.
Qed.

End MatcherCounts.

(** ** The matcher and the count it leaves *)

Section MatcherClaims.
Context {char : Type} {char_dec : EqDecision char}.
Implicit Types (A B : list char).

(** The pairing that the specification describes is unique. *)
Lemma greedy_unique A B n ps1 :
  greedy A B n ps1 → ∀ ps2, greedy A B n ps2 → ps1 = ps2.
Proof.
  induction 1 as [|i ch j ps1 _ IH Ha Hb Hfree Hfirst|i ch ps1 _ IH Ha Hnone];
    intros ps2 Hother.
  - by inversion Hother.
  - inversion Hother as [|i' ch' j' ps2' Hprev Ha' Hb' Hfree' Hfirst'
                         |i' ch' ps2' Hprev Ha' Hnone']; simplify_eq.
    + rewrite <- (IH ps2' Hprev) in *.
      destruct (Nat.lt_trichotomy j j') as [Hlt|[->|Hlt]]; [|done|].
      * by destruct Hfree; apply Hfirst'.
      * by destruct Hfree'; apply Hfirst.
    + rewrite <- (IH ps2 Hprev) in *. by destruct Hfree; apply Hnone'.
  - inversion Hother as [|i' ch' j' ps2' Hprev Ha' Hb' Hfree' Hfirst'
                         |i' ch' ps2' Hprev Ha' Hnone']; simplify_eq.
    + rewrite <- (IH ps2' Hprev) in *. by destruct Hfree'; apply Hnone.
    + by apply IH.
Qed.

Lemma remaining_after_crossing_total A B :
  ∃ ps ra rb,
    find_common_pairs A B = Ok (ps, ra, rb) ∧
    match_inv A B (length A) (MatchState ra rb ps) ∧
    remaining_after_crossing A B
    = Ok (length (unmarked A ra) + length (unmarked B rb))%nat ∧
    ∀ c,
      occ (unmarked A ra) c = (occ A c - occ B c)%nat ∧
      occ (unmarked B rb) c = (occ B c - occ A c)%nat.
Proof.
  destruct (find_common_pairs_excess A B) as (ps & ra & rb & Hrun & Hinv & Hocc).
  exists ps, ra, rb. split_and!; try done.
  unfold remaining_after_crossing. rewrite Hrun. cbn.
  destruct Hinv as [Hla Hlb _ Hma Hmb _ _ _ _ _]. simpl in *.
  rewrite animate_crosses_same; cbn.
  - by rewrite !length_unmarked.
  - intros i j Hin. split.
    + apply Hma. apply list_elem_of_fmap. by exists (i, j).
    + apply Hmb. apply list_elem_of_fmap. by exists (i, j).
Qed.

(** C2: the matcher returns the pairing of the greedy first-available
    policy (each letter of A in turn takes the first equal letter of B that
    is still free, or stays alone when there is none), which is the only
    such pairing, and the count of letters left is
    (length A - matched) + (length B - matched). *)
Theorem matcher_is_greedy A B :
  ∃ ps ra rb,
    find_common_pairs A B = Ok (ps, ra, rb) ∧
    greedy A B (length A) ps ∧
    (∀ ps', greedy A B (length A) ps' → ps' = ps) ∧
    (length ps ≤ length A)%nat ∧ (length ps ≤ length B)%nat ∧
    remaining_after_crossing A B
    = Ok ((length A - length ps) + (length B - length ps))%nat.
Proof.
  destruct (remaining_after_crossing_total A B)
    as (ps & ra & rb & Hrun & Hinv & Hrem & _).
  exists ps, ra, rb.
  destruct Hinv as [Hla Hlb Hgreedy _ _ _ _ _ Hca Hcb]. simpl in *.
  split_and!; try done; try lia.
  - intros ps' Hps'. by apply (greedy_unique A B (length A)).
  - rewrite Hrem, !length_unmarked by done. f_equal. lia.
Qed.

(** C7: in the pairing that the matcher returns no index of A and no index
    of B occurs in two pairs. *)
Theorem pairing_indices_used_once A B :
  ∃ ps ra rb,
    find_common_pairs A B = Ok (ps, ra, rb) ∧
    NoDup ps.*1 ∧ NoDup ps.*2.
Proof.
  destruct (find_common_pairs_excess A B) as (ps & ra & rb & Hrun & Hinv & _).
  exists ps, ra, rb.
  destruct Hinv as [_ _ _ _ _ _ Hnda Hndb _ _]. done.
Qed.

End MatcherClaims.

Section LeftoverClaims.
Context {char : Type} {char_dec : EqDecision char}.
Implicit Types (A B l : list char).

Lemma occ_permutation A B : A ≡ₚ B ↔ ∀ c, occ A c = occ B c.
Proof. apply (Permutation_count_occ (decide_rel (=))). Qed.

Lemma occ_none l : (∀ c, occ l c = 0%nat) ↔ l = [].
Proof. apply (count_occ_inv_nil (decide_rel (=))). Qed.

(** The count that is left is zero exactly for two anagrams. *)
Lemma remaining_zero_iff_anagram A B :
  ∃ n, remaining_after_crossing A B = Ok n ∧ (n = 0%nat ↔ A ≡ₚ B).
Proof.
  destruct (remaining_after_crossing_total A B)
    as (ps & ra & rb & _ & _ & Hrem & Hocc).
  eexists. split; [exact Hrem|].
  rewrite occ_permutation. split.
  - intros Hzero c.
    assert (unmarked A ra = []) as Ha by (apply length_zero_iff_nil; lia).
    assert (unmarked B rb = []) as Hb by (apply length_zero_iff_nil; lia).
    destruct (Hocc c) as [HA HB]. rewrite Ha in HA. rewrite Hb in HB.
    unfold occ in *. simpl in *. lia.
  - intros Hsame.
    assert (unmarked A ra = []) as ->.
    { apply occ_none. intros c. destruct (Hocc c) as [-> _]. rewrite Hsame. lia. }
    assert (unmarked B rb = []) as ->.
    { apply occ_none. intros c. destruct (Hocc c) as [_ ->]. rewrite Hsame. lia. }
    done.
Qed.

(** C6: for two non-empty letter sequences the count that is left is at
    least 1, except when they are permutations of each other, and then it
    is 0. *)
Theorem remaining_at_least_one_unless_anagram A B :
  A ≠ [] → B ≠ [] →
  ∃ n,
    remaining_after_crossing A B = Ok n ∧
    (A ≡ₚ B → n = 0%nat) ∧
    (¬ A ≡ₚ B → (1 ≤ n)%nat).
Proof.
  intros _ _.
  destruct (remaining_zero_iff_anagram A B) as (n & Hrun & Hzero).
  exists n. split_and!; [done|by apply Hzero|].
  intros Hnot. destruct n; [|lia]. destruct Hnot. by apply Hzero.
Qed.

(** The count that is left does not depend on which name comes first. *)
Lemma remaining_after_crossing_comm A B :
  remaining_after_crossing A B = remaining_after_crossing B A.
Proof.
  destruct (remaining_after_crossing_total A B)
    as (ps & ra & rb & _ & _ & -> & Hocc).
  destruct (remaining_after_crossing_total B A)
    as (ps' & ra' & rb' & _ & _ & -> & Hocc').
  assert (unmarked A ra ≡ₚ unmarked A rb') as ->.
  { apply occ_permutation. intros c.
    destruct (Hocc c) as [-> _]. by destruct (Hocc' c) as [_ ->]. }
  assert (unmarked B rb ≡ₚ unmarked B ra') as ->.
  { apply occ_permutation. intros c.
    destruct (Hocc c) as [_ ->]. by destruct (Hocc' c) as [-> _]. }
  f_equal. lia.
Qed.

End LeftoverClaims.

Lemma remaining_at_least_one_unless_anagram_abc_bcd :
  ∃ n,
    remaining_after_crossing (list_ascii_of_string "abc") (list_ascii_of_string "bcd")
    = Ok n ∧
    (list_ascii_of_string "abc" ≡ₚ list_ascii_of_string "bcd" → n = 0%nat) ∧
    (¬ list_ascii_of_string "abc" ≡ₚ list_ascii_of_string "bcd" → (1 ≤ n)%nat).
Proof.
  apply (remaining_at_least_one_unless_anagram
           (list_ascii_of_string "abc") (list_ascii_of_string "bcd")); done.
Defined.

(** ** The page *)

(** More fuel does not change what the loop returns. *)
Lemma while_loop_mono (count : Z) (fuel : nat) :
  ∀ fuel' flames steps r,
    (fuel ≤ fuel')%nat →
    while_loop fuel count flames steps = Ok r →
    while_loop fuel' count flames steps = Ok r.
Proof.
  induction fuel as [|fuel IH]; intros fuel' flames steps r Hle Hrun.
  - simpl in Hrun. destruct (decide (1 < length flames)%nat) as [|Hshort] eqn:Hd;
      [done|].
    destruct fuel'; simpl; by rewrite Hd.
  - destruct fuel' as [|fuel']; [lia|]. simpl in *.
    destruct (decide (1 < length flames)%nat); [|done].
    destruct (loop_body count flames steps) as [[flames' steps']|]; [|done].
    cbn in *. apply IH; [lia | done].
Qed.

Lemma eliminate_flames_animation_mono (count : Z) (fuel fuel' : nat) r :
  (fuel ≤ fuel')%nat →
  eliminate_flames_animation fuel count = Ok r →
  eliminate_flames_animation fuel' count = Ok r.
Proof.
  intros Hle. unfold eliminate_flames_animation.
  destruct (while_loop fuel count FLAMES []) as [[flames steps]|] eqn:Hrun; [|done].
  by rewrite (while_loop_mono count fuel fuel' _ _ _ Hle Hrun).
Qed.

Lemma eliminate_flames_animation_deterministic (count : Z) (fuel1 fuel2 : nat) r1 r2 :
  eliminate_flames_animation fuel1 count = Ok r1 →
  eliminate_flames_animation fuel2 count = Ok r2 →
  r1 = r2.
Proof.
  intros H1 H2.
  apply (eliminate_flames_animation_mono count _ (fuel1 `max` fuel2)) in H1; [|lia].
  apply (eliminate_flames_animation_mono count _ (fuel1 `max` fuel2)) in H2; [|lia].
  congruence.
Qed.

Section Page.
Context `{PyStr char}.
Implicit Types (name : list char).

Lemma sanitize_empty name :
  sanitize name = [] ↔ Forall (λ ch, isalpha ch = false) (str_lower name).
Proof.
  unfold sanitize. induction (str_lower name) as [|ch l IH].
  - split; [constructor | done].
  - rewrite filter_cons. destruct (isalpha ch) eqn:Hch; simpl.
    + split; [done|]. intros Hall. inversion Hall; congruence.
    + rewrite IH. split; [by constructor|]. by inversion 1.
Qed.

(** The branch taken on two names that both have a letter. *)
Lemma run_submitted_valid fuel name1 name2 :
  sanitize name1 ≠ [] → sanitize name2 ≠ [] →
  run_submitted fuel name1 name2
  = (remaining ← remaining_after_crossing (sanitize name1) (sanitize name2);
     '(final_letter, elimination_steps) ←
         eliminate_flames_animation fuel (Z.of_nat remaining);
     let '(title, emoji, one_liner) := map_result final_letter in
     Ok (Shown (Session remaining elimination_steps final_letter
                        title emoji one_liner))).
Proof.
  intros H1 H2. unfold run_submitted.
  by rewrite !bool_decide_eq_false_2.
Qed.

Lemma run_submitted_invalid fuel name1 name2 :
  sanitize name1 = [] ∨ sanitize name2 = [] →
  run_submitted fuel name1 name2 = Ok InvalidInput.
Proof.
  intros Hempty. unfold run_submitted.
  destruct (decide (sanitize name1 = [])) as [E1|N1].
  - by rewrite (bool_decide_eq_true_2 _ E1).
  - destruct Hempty as [?|E2]; [done|].
    rewrite (bool_decide_eq_true_2 _ E2). by rewrite orb_true_r.
Qed.

Lemma run_submitted_shows fuel name1 name2 :
  sanitize name1 ≠ [] → sanitize name2 ≠ [] → (5 ≤ fuel)%nat →
  ∃ s, run_submitted fuel name1 name2 = Ok (Shown s).
Proof.
  intros H1 H2 Hfuel. rewrite run_submitted_valid by done.
  destruct (remaining_after_crossing_total (sanitize name1) (sanitize name2))
    as (ps & ra & rb & _ & _ & -> & _). cbn.
  destruct (eliminate_run (Z.of_nat (length (unmarked (sanitize name1) ra)
                                     + length (unmarked (sanitize name2) rb))))
    as (final & steps & Hrun & _).
  rewrite (Hrun fuel Hfuel). cbn.
  destruct (map_result final) as [[title emoji] one_liner]. by eexists.
Qed.

End Page.

Section PageClaims.
Context `{PyStr char}.
Implicit Types (name : list char) (A B : list char).

(** The page answers InvalidInput on no other input than a name without a
    letter. *)
Lemma run_submitted_invalid_iff fuel name1 name2 :
  run_submitted fuel name1 name2 = Ok InvalidInput
  ↔ sanitize name1 = [] ∨ sanitize name2 = [].
Proof.
  split; [|apply run_submitted_invalid].
  intros Hrun.
  destruct (decide (sanitize name1 = [])) as [|N1]; [by left|].
  destruct (decide (sanitize name2 = [])) as [|N2]; [by right|].
  rewrite run_submitted_valid in Hrun by done.
  destruct (remaining_after_crossing _ _) as [n|]; [|done]. cbn in Hrun.
  destruct (eliminate_flames_animation fuel _) as [[final steps]|]; [|done].
  cbn in Hrun. by destruct (map_result final) as [[? ?] ?].
Qed.

(** C8: the page is deterministic.  Two runs on the same two names, however
    much fuel each is given, end in the same outcome: the same count of
    letters left, the same removal order, the same final letter and the
    same category. *)
Theorem run_submitted_deterministic fuel1 fuel2 name1 name2 out1 out2 :
  run_submitted fuel1 name1 name2 = Ok out1 →
  run_submitted fuel2 name1 name2 = Ok out2 →
  out1 = out2 ∧
  ∀ s1 s2, out1 = Shown s1 → out2 = Shown s2 →
    remaining_count s1 = remaining_count s2 ∧
    elimination_order s1 = elimination_order s2 ∧
    result_letter s1 = result_letter s2 ∧
    result_word s1 = result_word s2.
Proof.
  intros Hrun1 Hrun2.
  assert (out1 = out2) as <-; [|split; [done|by intros; simplify_eq]].
  destruct (decide (sanitize name1 = [] ∨ sanitize name2 = [])) as [Hinv|Hval].
  - rewrite run_submitted_invalid in Hrun1, Hrun2 by done. congruence.
  - assert (sanitize name1 ≠ []) as N1 by (intros E; apply Hval; by left).
    assert (sanitize name2 ≠ []) as N2 by (intros E; apply Hval; by right).
    rewrite run_submitted_valid in Hrun1, Hrun2 by done.
    destruct (remaining_after_crossing _ _) as [n|]; [|done]. cbn in *.
    destruct (eliminate_flames_animation fuel1 _) as [r1|] eqn:E1; [|done].
    destruct (eliminate_flames_animation fuel2 _) as [r2|] eqn:E2; [|done].
    rewrite (eliminate_flames_animation_deterministic _ _ _ _ _ E1 E2) in Hrun1.
    cbn in *. congruence.
Qed.

(** C10: the count of letters left is the same whichever sequence comes
    first, so the page shows the same outcome, final letter and category
    included, when the two names are swapped. *)
Theorem swapping_the_names_changes_nothing A B fuel name1 name2 :
  remaining_after_crossing A B = remaining_after_crossing B A ∧
  run_submitted fuel name1 name2 = run_submitted fuel name2 name1.
Proof.
  split; [apply remaining_after_crossing_comm|].
  unfold run_submitted. rewrite orb_comm.
  by rewrite (remaining_after_crossing_comm (sanitize name1) (sanitize name2)).
Qed.

End PageClaims.

Lemma run_submitted_deterministic_steve_eve :
  ∃ out1 out2,
    run_submitted 5 (list_ascii_of_string "steve") (list_ascii_of_string "eve")
    = Ok out1 ∧
    run_submitted 9 (list_ascii_of_string "steve") (list_ascii_of_string "eve")
    = Ok out2 ∧
    out1 = out2 ∧
    ∀ s1 s2, out1 = Shown s1 → out2 = Shown s2 →
      remaining_count s1 = remaining_count s2 ∧
      elimination_order s1 = elimination_order s2 ∧
      result_letter s1 = result_letter s2 ∧
      result_word s1 = result_word s2.
Proof.
  eexists _, _. split; [vm_compute; reflexivity|].
  split; [vm_compute; reflexivity|].
  apply (run_submitted_deterministic 5 9
           (list_ascii_of_string "steve") (list_ascii_of_string "eve"));
    vm_compute; reflexivity.
Defined.

(** ** The normalizer on the code points below 256 *)

Module Latin1Facts.

Lemma isalpha_lower (c : ascii) :
  Latin1.isalpha (Latin1.lower c) = Latin1.isalpha c.
Proof. destruct c as [[] [] [] [] [] [] [] []]; reflexivity. Qed.

Lemma ascii_letter_lower (c : ascii) :
  Latin1.is_ascii c = true → Latin1.isalpha c = true →
  Latin1.is_a_z (Latin1.lower c) = true.
Proof.
  destruct c as [[] [] [] [] [] [] [] []]; vm_compute;
    solve [reflexivity | discriminate].
Qed.

(** Dropping the characters that are not letters and lowercasing commute. *)
Lemma sanitize_filter_then_lower (name : list ascii) :
  sanitize name = map Latin1.lower (filter (λ ch, Latin1.isalpha ch) name).
Proof.
  unfold sanitize. simpl. induction name as [|c name IH]; [done|].
  simpl. rewrite !filter_cons, isalpha_lower.
  destruct (Latin1.isalpha c); simpl; by rewrite IH.
Qed.

Lemma sanitize_only_letters (name : list ascii) :
  Forall (λ ch, Latin1.isalpha ch = true) (sanitize name).
Proof.
  unfold sanitize. apply Forall_forall. intros c Hc%list_elem_of_filter.
  destruct Hc as [Hc _]. simpl in Hc. by destruct (Latin1.isalpha c).
Qed.

End Latin1Facts.

(** C5, as the code has it: [str.isalpha] keeps letters outside a to z.  The
    one-character name U+00E9, e with acute accent, normalizes to itself,
    which is not a letter of a to z. *)
Lemma sanitize_keeps_a_letter_outside_a_z :
  sanitize [ascii_of_N 233] = [ascii_of_N 233] ∧
  forallb Latin1.is_a_z (sanitize [ascii_of_N 233]) = false.
Proof. split; reflexivity. Qed.

(** C5, amended: for every raw input string of ASCII characters the
    normalizer drops the characters that are not alphabetic and lowercases
    the rest, and the result holds only letters of a to z; "John 123!"
    normalizes to j o h n and the empty string to the empty sequence. *)
Theorem sanitize_ascii (name : list ascii) :
  Forall (λ ch, Latin1.is_ascii ch = true) name →
  sanitize name = map Latin1.lower (filter (λ ch, Latin1.isalpha ch) name) ∧
  Forall (λ ch, Latin1.is_a_z ch = true) (sanitize name) ∧
  sanitize (list_ascii_of_string "John 123!") = list_ascii_of_string "john" ∧
  sanitize ([] : list ascii) = [].
Proof.
  intros Hascii.
  split_and!; [apply Latin1Facts.sanitize_filter_then_lower| |reflexivity..].
  rewrite Latin1Facts.sanitize_filter_then_lower.
  induction Hascii as [|c name Hc _ IH]; [constructor|].
  rewrite filter_cons. destruct (Latin1.isalpha c) eqn:Halpha; simpl; [|done].
  constructor; [by apply Latin1Facts.ascii_letter_lower | done].
Qed.

Lemma sanitize_ascii_john :
  sanitize (list_ascii_of_string "John 123!")
  = map Latin1.lower
      (filter (λ ch, Latin1.isalpha ch) (list_ascii_of_string "John 123!")) ∧
  Forall (λ ch, Latin1.is_a_z ch = true)
         (sanitize (list_ascii_of_string "John 123!")) ∧
  sanitize (list_ascii_of_string "John 123!") = list_ascii_of_string "john" ∧
  sanitize ([] : list ascii) = [].
Proof.
  apply (sanitize_ascii (list_ascii_of_string "John 123!")).
  repeat (constructor; [reflexivity|]). constructor.
Defined.

(** ** More on the matcher: the pairs and the flags it returns *)

Section MatcherPairs.
Context {char : Type} {char_dec : EqDecision char}.
Implicit Types (A B : list char).

Lemma greedy_pairs_equal_letters A B n ps :
  greedy A B n ps →
  ∀ i j, (i, j) ∈ ps →
    (i < n)%nat ∧ ∃ ch, A !! i = Some ch ∧ B !! j = Some ch.
Proof.
  induction 1 as [|i ch j ps _ IH Ha Hb _ _|i ch ps _ IH _ _]; intros i' j' Hin.
  - by apply elem_of_nil in Hin.
  - apply elem_of_app in Hin as [Hin|Hin%list_elem_of_singleton].
    + destruct (IH i' j' Hin) as [Hlt Hch]. split; [lia | done].
    + simplify_eq. split; [lia | by exists ch].
  - destruct (IH i' j' Hin) as [Hlt Hch]. split; [lia | done].
Qed.

Lemma greedy_pairs_in_order A B n ps :
  greedy A B n ps →
  StronglySorted lt ps.*1 ∧ Forall (λ i, i < n)%nat ps.*1.
Proof.
  induction 1 as [|i ch j ps _ [IHs IHb] _ _ _ _|i ch ps _ [IHs IHb] _ _].
  - split; constructor.
  - rewrite fmap_app. simpl. split.
    + apply StronglySorted_app_2; [|done|repeat constructor].
      intros k1 k2 Hk1 ->%list_elem_of_singleton.
      by apply (proj1 (Forall_forall _ _) IHb).
    + apply Forall_app. split; [|by repeat constructor].
      eapply Forall_impl; [done|]. intros; simpl in *; lia.
  - split; [done|]. eapply Forall_impl; [done|]. intros; simpl in *; lia.
Qed.

(** A letter of A is left alone only when every equal letter of B is taken. *)
Lemma greedy_alone A B n ps :
  greedy A B n ps →
  ∀ i ch j,
    (i < n)%nat → i ∉ ps.*1 → A !! i = Some ch → B !! j = Some ch → j ∈ ps.*2.
Proof.
  induction 1 as [|i ch j ps Hprev IH Ha Hb _ _|i ch ps Hprev IH Ha Hnone];
    intros i' ch' j' Hlt Hout Ha' Hb'.
  - lia.
  - rewrite fmap_app in *. simpl in *. apply elem_of_app. left.
    destruct (decide (i' = i)) as [->|Hne].
    + destruct Hout. apply elem_of_app. right. by left.
    + apply (IH i' ch' j'); [lia| |done..].
      intros Hin. apply Hout. apply elem_of_app. by left.
  - destruct (decide (i' = i)) as [->|Hne].
    + simplify_eq. by apply Hnone.
    + apply (IH i' ch' j'); [lia|done..].
Qed.

(** X1: every pair that the matcher returns joins two equal letters, one of
    each sequence, and the pairs come in the order they were found, by
    increasing position in the first sequence. *)
Theorem pairs_join_equal_letters_in_order A B :
  ∃ ps ra rb,
    find_common_pairs A B = Ok (ps, ra, rb) ∧
    (∀ i j, (i, j) ∈ ps → ∃ ch, A !! i = Some ch ∧ B !! j = Some ch) ∧
    StronglySorted lt ps.*1.
Proof.
  destruct (find_common_pairs_excess A B) as (ps & ra & rb & Hrun & Hinv & _).
  exists ps, ra, rb. pose proof (inv_greedy _ _ _ _ Hinv) as Hgreedy.
  simpl in Hgreedy. split_and!; [done| |].
  - intros i j Hin.
    by destruct (greedy_pairs_equal_letters A B _ ps Hgreedy i j Hin).
  - by destruct (greedy_pairs_in_order A B _ ps Hgreedy).
Qed.

(** X2: the two lists of flags that the matcher returns are as long as the
    two sequences, and a flag is set exactly at the positions that occur in
    a pair. *)
Theorem flags_mark_the_paired_positions A B :
  ∃ ps ra rb,
    find_common_pairs A B = Ok (ps, ra, rb) ∧
    length ra = length A ∧ length rb = length B ∧
    (∀ i, ra !! i = Some true ↔ i ∈ ps.*1) ∧
    (∀ j, rb !! j = Some true ↔ j ∈ ps.*2).
Proof.
  destruct (find_common_pairs_excess A B) as (ps & ra & rb & Hrun & Hinv & _).
  exists ps, ra, rb. by destruct Hinv.
Qed.

(** X3: the loop of the page that marks every pair again while it redraws
    the names leaves the flags of the matcher as they are, and never indexes
    out of range. *)
Theorem redraw_leaves_flags_unchanged A B :
  ∃ ps ra rb,
    find_common_pairs A B = Ok (ps, ra, rb) ∧
    animate_crosses ps ra rb = Ok (ra, rb).
Proof.
  destruct (find_common_pairs_excess A B) as (ps & ra & rb & Hrun & Hinv & _).
  exists ps, ra, rb. split; [done|].
  destruct Hinv as [_ _ _ Hma Hmb _ _ _ _ _]. simpl in *.
  apply animate_crosses_same. intros i j Hin. split.
  - apply Hma, list_elem_of_fmap. by exists (i, j).
  - apply Hmb, list_elem_of_fmap. by exists (i, j).
Qed.

(** X4: after the crossing the two names have no letter in common any more:
    a letter of A whose flag is clear differs from every letter of B whose
    flag is clear. *)
Theorem leftover_letters_are_disjoint A B :
  ∃ ps ra rb,
    find_common_pairs A B = Ok (ps, ra, rb) ∧
    ∀ i j ch,
      ra !! i = Some false → rb !! j = Some false →
      A !! i = Some ch → B !! j ≠ Some ch.
Proof.
  destruct (find_common_pairs_excess A B) as (ps & ra & rb & Hrun & Hinv & _).
  exists ps, ra, rb. split; [done|].
  destruct Hinv as [_ _ Hgreedy Hma Hmb _ _ _ _ _]. simpl in *.
  intros i j ch Hi Hj Ha Hb.
  assert (j ∈ ps.*2) as Hin.
  { apply (greedy_alone A B _ ps Hgreedy i ch j); [by eapply lookup_lt_Some| |done..].
    intros Hin%Hma. congruence. }
  apply Hmb in Hin. congruence.
Qed.

(** X5: the letters whose flag is clear are, letter by letter, what each
    sequence has in excess of the other. *)
Theorem leftover_letters_are_the_excess A B :
  ∃ ps ra rb,
    find_common_pairs A B = Ok (ps, ra, rb) ∧
    ∀ c,
      occ (unmarked A ra) c = (occ A c - occ B c)%nat ∧
      occ (unmarked B rb) c = (occ B c - occ A c)%nat.
Proof.
  destruct (find_common_pairs_excess A B) as (ps & ra & rb & Hrun & _ & Hocc).
  by exists ps, ra, rb.
Qed.

(** X6: the count that is left depends on the letters of each name only, not
    on their order. *)
Theorem remaining_ignores_letter_order A A' B B' :
  A ≡ₚ A' → B ≡ₚ B' →
  remaining_after_crossing A B = remaining_after_crossing A' B'.
Proof.
  intros HA HB.
  destruct (remaining_after_crossing_total A B)
    as (ps & ra & rb & _ & _ & -> & Hocc).
  destruct (remaining_after_crossing_total A' B')
    as (ps' & ra' & rb' & _ & _ & -> & Hocc').
  assert (unmarked A ra ≡ₚ unmarked A' ra') as ->.
  { apply occ_permutation. intros c.
    destruct (Hocc c) as [-> _]. destruct (Hocc' c) as [-> _].
    by rewrite (proj1 (occ_permutation A A') HA c),
               (proj1 (occ_permutation B B') HB c). }
  assert (unmarked B rb ≡ₚ unmarked B' rb') as ->.
  { apply occ_permutation. intros c.
    destruct (Hocc c) as [_ ->]. destruct (Hocc' c) as [_ ->].
    by rewrite (proj1 (occ_permutation A A') HA c),
               (proj1 (occ_permutation B B') HB c). }
  done.
Qed.

End MatcherPairs.

Lemma remaining_ignores_letter_order_abc_bcd :
  remaining_after_crossing (list_ascii_of_string "abc") (list_ascii_of_string "bcd")
  = remaining_after_crossing (list_ascii_of_string "cab") (list_ascii_of_string "dcb").
Proof.
  apply (remaining_ignores_letter_order
           (list_ascii_of_string "abc") (list_ascii_of_string "cab")
           (list_ascii_of_string "bcd") (list_ascii_of_string "dcb")).
  - simpl. symmetry. apply (Permutation_cons_append [_; _]).
  - simpl. apply (Permutation_rev [_; _; _]).
Defined.

(** ** The greedy pairing is as large as a pairing can be *)

Section OccFacts.
Context {T : Type} {T_dec : EqDecision T}.
Implicit Types (l k : list T) (c : T).

Lemma occ_app l k c : occ (l ++ k) c = (occ l c + occ k c)%nat.
Proof. unfold occ. apply count_occ_app. Qed.

Lemma occ_elem_of l c : (0 < occ l c)%nat ↔ c ∈ l.
Proof.
  unfold occ. rewrite list_elem_of_In.
  symmetry. apply (count_occ_In (decide_rel (=))).
Qed.

Lemma occ_submseteq l k c : l ⊆+ k → (occ l c ≤ occ k c)%nat.
Proof.
  intros [k' Hk]%submseteq_Permutation.
  rewrite (proj1 (occ_permutation k (l ++ k')) Hk c), occ_app. lia.
Qed.

Lemma occ_le_length l :
  ∀ k, (∀ c, (occ l c ≤ occ k c)%nat) → (length l ≤ length k)%nat.
Proof.
  induction l as [|x l IH]; intros k Hle; simpl; [lia|].
  assert (x ∈ k) as [k' Hk]%elem_of_Permutation.
  { apply occ_elem_of. specialize (Hle x). rewrite occ_cons in Hle.
    destruct (decide (x = x)); [lia | done]. }
  rewrite (Permutation_length Hk). simpl.
  apply le_n_S, IH. intros c. specialize (Hle c).
  rewrite (proj1 (occ_permutation k (x :: k')) Hk c), !occ_cons in Hle. lia.
Qed.

Lemma occ_fmap_Some l c : occ (Some <$> l) (Some c) = occ l c.
Proof.
  induction l as [|x l IH]; [done|].
  rewrite fmap_cons, !occ_cons, IH.
  destruct (decide (Some x = Some c)), (decide (x = c)); congruence.
Qed.

Lemma occ_fmap_Some_None l : occ (Some <$> l) None = 0%nat.
Proof.
  induction l as [|x l IH]; [done|].
  rewrite fmap_cons, occ_cons, IH. by destruct (decide (Some x = None)).
Qed.

Lemma lookups_of_all_positions l :
  (λ i, l !! i) <$> seq 0 (length l) = Some <$> l.
Proof.
  induction l as [|x l IH]; [done|].
  cbn [length fmap list_fmap seq]. f_equal.
  rewrite <- fmap_S_seq, <- list_fmap_compose. exact IH.
Qed.

(** The letters found at pairwise distinct positions of [l] are letters of
    [l], each no more often than [l] has it. *)
Lemma lookups_submseteq l (positions : list nat) :
  NoDup positions →
  (∀ i, i ∈ positions → is_Some (l !! i)) →
  (λ i, l !! i) <$> positions ⊆+ Some <$> l.
Proof.
  intros Hnd Hin. rewrite <- lookups_of_all_positions.
  apply fmap_submseteq, NoDup_submseteq; [done|].
  intros i Hi. apply elem_of_seq. split; [lia|].
  simpl. by apply lookup_lt_is_Some, Hin.
Qed.

End OccFacts.

Section MatcherMaximum.
Context {char : Type} {char_dec : EqDecision char}.
Implicit Types (A B : list char).

(** X7: no pairing of equal letters that uses each position at most once has
    more pairs than the one the matcher returns. *)
Theorem matcher_pairs_as_many_as_possible A B :
  ∃ ps ra rb,
    find_common_pairs A B = Ok (ps, ra, rb) ∧
    ∀ ps' : list (nat * nat),
      NoDup ps'.*1 → NoDup ps'.*2 →
      (∀ i j, (i, j) ∈ ps' → ∃ ch, A !! i = Some ch ∧ B !! j = Some ch) →
      (length ps' ≤ length ps)%nat.
Proof.
  destruct (find_common_pairs_excess A B) as (ps & ra & rb & Hrun & Hinv & Hocc).
  exists ps, ra, rb. split; [done|].
  intros ps' Hnda Hndb Hvalid.
  destruct Hinv as [Hla _ _ _ _ _ _ _ Hca _]. simpl in *.
  rewrite <- (length_unmarked A ra) in Hca by done.
  set (L := (λ i, A !! i) <$> ps'.*1).
  assert (L ⊆+ Some <$> A) as HLA.
  { apply lookups_submseteq; [done|].
    intros i [[i' j] [-> Hin]]%list_elem_of_fmap.
    destruct (Hvalid i' j Hin) as (ch & Ha & _). by exists ch. }
  assert (L = (λ j, B !! j) <$> ps'.*2) as HL.
  { unfold L. rewrite <- !list_fmap_compose.
    apply list_fmap_ext. intros k [i j] Hk. simpl.
    destruct (Hvalid i j) as (ch & -> & ->); [|done].
    by eapply list_elem_of_lookup_2. }
  assert (L ⊆+ Some <$> B) as HLB.
  { rewrite HL. apply lookups_submseteq; [done|].
    intros j [[i j'] [-> Hin]]%list_elem_of_fmap.
    destruct (Hvalid i j' Hin) as (ch & _ & Hb). by exists ch. }
  assert (length (L ++ (Some <$> unmarked A ra)) ≤ length (Some <$> A))%nat as Hlen.
  { apply occ_le_length. intros [c|].
    - rewrite occ_app, !occ_fmap_Some. destruct (Hocc c) as [-> _].
      pose proof (occ_submseteq _ _ (Some c) HLA) as H1.
      pose proof (occ_submseteq _ _ (Some c) HLB) as H2.
      rewrite occ_fmap_Some in H1, H2. lia.
    - rewrite occ_app, !occ_fmap_Some_None.
      pose proof (occ_submseteq _ _ None HLA) as H1.
      rewrite occ_fmap_Some_None in H1. lia. }
  unfold L in Hlen. rewrite length_app, !length_fmap in Hlen. lia.
Qed.

End MatcherMaximum.

(** ** More on the eliminator *)

(** The five lengths the loop meets all divide 60. *)
Lemma removal_index_period (count k : Z) (n : nat) :
  (1 ≤ n ≤ 6)%nat →
  removal_index (count + 60 * k) n = removal_index count n.
Proof.
  intros Hn. unfold removal_index.
  assert (∃ q, 60 = q * Z.of_nat n) as [q Hq].
  { destruct n as [|[|[|[|[|[|[|?]]]]]]]; [lia| | | | | | |lia].
    - by exists 60. - by exists 30. - by exists 20.
    - by exists 15. - by exists 12. - by exists 10. }
  replace (count + 60 * k - 1) with (count - 1 + (q * k) * Z.of_nat n)
    by (rewrite Hq; ring).
  apply Z_mod_plus_full.
Qed.

Lemma loop_body_period (count k : Z) (flames steps : list ascii) :
  (1 ≤ length flames ≤ 6)%nat →
  loop_body (count + 60 * k) flames steps = loop_body count flames steps.
Proof. intros Hn. unfold loop_body. by rewrite removal_index_period. Qed.

Lemma while_loop_period (count k : Z) (fuel : nat) :
  ∀ flames steps,
    (length flames ≤ 6)%nat →
    while_loop fuel (count + 60 * k) flames steps
    = while_loop fuel count flames steps.
Proof.
  induction fuel as [|fuel IH]; intros flames steps Hlen; [done|]. simpl.
  destruct (decide (1 < length flames)%nat) as [Hlong|]; [|done].
  rewrite loop_body_period by lia.
  destruct (loop_body_removes_one count flames steps)
    as (x & flames' & -> & Hlen' & _); [lia|].
  cbn. apply IH. lia.
Qed.

(** X8: the eliminator has period 60 in its count (60 is the least common
    multiple of the lengths 6, 5, 4, 3, 2 it counts around): adding any
    multiple of 60 to the count, or taking it away, changes neither the
    surviving letter nor the removal order. *)
Theorem eliminator_has_period_60 (fuel : nat) (count k : Z) :
  eliminate_flames_animation fuel (count + 60 * k)
  = eliminate_flames_animation fuel count.
Proof.
  unfold eliminate_flames_animation. by rewrite while_loop_period.
Qed.

(** X9: [map_result] answers with its default, "Unknown" and two empty
    strings, exactly on the characters that are not one of the six capital
    letters F, L, A, M, E, S; the keys are case-sensitive. *)
Theorem map_result_default_iff_not_a_key (letter : ascii) :
  map_result letter = ("Unknown", EmptyString, EmptyString) ↔ letter ∉ FLAMES.
Proof.
  assert (bool_decide (map_result letter = ("Unknown", EmptyString, EmptyString))
          = negb (bool_decide (letter ∈ FLAMES))) as Hb.
  { destruct letter as [[] [] [] [] [] [] [] []]; vm_compute; reflexivity. }
  rewrite <- (bool_decide_spec (map_result letter = _)), Hb.
  rewrite negb_True, bool_decide_spec. done.
Qed.

Lemma flames_letter_category (letter : ascii) :
  letter ∈ FLAMES →
  (map_result letter).1.1
    ∈ ["Friends"; "Love"; "Affection"; "Marriage"; "Enemies"; "Siblings"].
Proof.
  unfold FLAMES. simpl. intros Hin.
  repeat (apply elem_of_cons in Hin as [->|Hin]; [vm_compute; set_solver|]).
  by apply elem_of_nil in Hin.
Qed.

(** X10: whatever the count, negative counts included, the letter that the
    eliminator returns is a key of the result table: with the five removed
    letters it makes up F, L, A, M, E, S, and [map_result] maps it to one of
    the six categories, never to "Unknown". *)
Theorem eliminator_result_is_a_category (count : Z) :
  ∃ final steps,
    (∀ fuel, (5 ≤ fuel)%nat →
       eliminate_flames_animation fuel count = Ok (final, steps)) ∧
    final :: steps ≡ₚ FLAMES ∧
    (map_result final).1.1
      ∈ ["Friends"; "Love"; "Affection"; "Marriage"; "Enemies"; "Siblings"].
Proof.
  destruct (eliminate_run count) as (final & steps & Hrun & _ & Hperm & _).
  exists final, steps. split_and!; [done..|].
  apply flames_letter_category. rewrite <- Hperm. left.
Qed.

(** ** More on the page *)

Section PageExtras.
Context `{PyStr char}.
Implicit Types (name : list char).

(** X11: whenever the page shows a result, the count it reports is at most
    the number of letters of the two normalized names, the surviving letter
    and the removal order together are exactly F, L, A, M, E, S, and the
    word, emoji and line shown are the table's entry for the surviving
    letter, which is never the "Unknown" default. *)
Theorem shown_session_is_well_formed fuel name1 name2 s :
  run_submitted fuel name1 name2 = Ok (Shown s) →
  (remaining_count s ≤ length (sanitize name1) + length (sanitize name2))%nat ∧
  result_letter s :: elimination_order s ≡ₚ FLAMES ∧
  map_result (result_letter s) = (result_word s, result_emoji s, result_line s) ∧
  result_word s
    ∈ ["Friends"; "Love"; "Affection"; "Marriage"; "Enemies"; "Siblings"].
Proof.
  intros Hrun.
  destruct (decide (sanitize name1 = [] ∨ sanitize name2 = [])) as [Hinv|Hval].
  { by rewrite run_submitted_invalid in Hrun. }
  assert (sanitize name1 ≠ []) as N1 by (intros E; apply Hval; by left).
  assert (sanitize name2 ≠ []) as N2 by (intros E; apply Hval; by right).
  rewrite run_submitted_valid in Hrun by done.
  destruct (remaining_after_crossing_total (sanitize name1) (sanitize name2))
    as (ps & ra & rb & _ & Hinv & Hrem & _).
  rewrite Hrem in Hrun. cbn in Hrun.
  destruct Hinv as [Hla Hlb _ _ _ _ _ _ Hca Hcb]. simpl in *.
  rewrite <- (length_unmarked _ ra) in Hca by done.
  rewrite <- (length_unmarked _ rb) in Hcb by done.
  set (n := (length (unmarked (sanitize name1) ra)
             + length (unmarked (sanitize name2) rb))%nat) in *.
  destruct (eliminate_run (Z.of_nat n)) as (final & steps & Hel & _ & Hperm & _).
  assert (final ∈ FLAMES) as Hword%flames_letter_category
    by (rewrite <- Hperm; left).
  destruct (eliminate_flames_animation fuel (Z.of_nat n)) as [r|] eqn:E; [|done].
  pose proof (Hel 5%nat (le_n _)) as E5.
  rewrite (eliminate_flames_animation_deterministic _ _ _ _ _ E E5) in Hrun.
  cbn in Hrun.
  destruct (map_result final) as [[title emoji] one_liner] eqn:Hmap.
  simplify_eq/=. split_and!; [lia | done..].
Qed.

(** X12: two names that normalize to anagrams of each other (a name and
    itself, for one) always end on "Friends": nothing is left, the count is
    0, and the letters go in the order S, E, M, A, L. *)
Theorem anagrams_are_friends fuel name1 name2 :
  sanitize name1 ≡ₚ sanitize name2 →
  sanitize name1 ≠ [] →
  (5 ≤ fuel)%nat →
  ∃ s,
    run_submitted fuel name1 name2 = Ok (Shown s) ∧
    remaining_count s = 0%nat ∧
    elimination_order s = list_ascii_of_string "SEMAL" ∧
    result_letter s = "F"%char ∧
    result_word s = "Friends".
Proof.
  intros Hperm N1 Hfuel.
  assert (sanitize name2 ≠ []) as N2.
  { intros E. rewrite E in Hperm. by apply Permutation_nil_r in Hperm. }
  rewrite run_submitted_valid by done.
  destruct (remaining_zero_iff_anagram (sanitize name1) (sanitize name2))
    as (n & -> & Hzero).
  rewrite (proj2 Hzero Hperm). cbn. change (Z.of_nat 0) with 0.
  rewrite (eliminate_flames_animation_mono 0 5 fuel
             ("F"%char, list_ascii_of_string "SEMAL") Hfuel eq_refl).
  cbn. by eexists.
Qed.

End PageExtras.

Lemma shown_session_is_well_formed_steve_eve :
  ∃ s,
    run_submitted 5 (list_ascii_of_string "steve") (list_ascii_of_string "eve")
    = Ok (Shown s) ∧
    (remaining_count s
     ≤ length (sanitize (list_ascii_of_string "steve"))
       + length (sanitize (list_ascii_of_string "eve")))%nat ∧
    result_letter s :: elimination_order s ≡ₚ FLAMES ∧
    map_result (result_letter s) = (result_word s, result_emoji s, result_line s) ∧
    result_word s
      ∈ ["Friends"; "Love"; "Affection"; "Marriage"; "Enemies"; "Siblings"].
Proof.
  eexists. split; [vm_compute; reflexivity|].
  apply (shown_session_is_well_formed 5
           (list_ascii_of_string "steve") (list_ascii_of_string "eve")).
  vm_compute. reflexivity.
Defined.

Lemma anagrams_are_friends_listen_silent :
  ∃ s,
    run_submitted 5 (list_ascii_of_string "Listen") (list_ascii_of_string "Silent!")
    = Ok (Shown s) ∧
    remaining_count s = 0%nat ∧
    elimination_order s = list_ascii_of_string "SEMAL" ∧
    result_letter s = "F"%char ∧
    result_word s = "Friends".
Proof.
  apply (anagrams_are_friends 5
           (list_ascii_of_string "Listen") (list_ascii_of_string "Silent!")).
  - vm_compute. solve_Permutation.
  - vm_compute. discriminate.
  - lia.
Defined.

(** X13: each of the six letters is the result for some pair of names. *)
Theorem every_category_is_reachable (letter : ascii) :
  letter ∈ FLAMES →
  ∃ (name1 name2 : list ascii) s,
    run_submitted 5 name1 name2 = Ok (Shown s) ∧ result_letter s = letter.
Proof.
  unfold FLAMES. simpl. intros Hin.
  repeat (apply elem_of_cons in Hin as [->|Hin]).
  - exists (list_ascii_of_string "a"), (list_ascii_of_string "bc").
    eexists. split; vm_compute; reflexivity.
  - exists (list_ascii_of_string "abcde"), (list_ascii_of_string "fghij").
    eexists. split; vm_compute; reflexivity.
  - exists (list_ascii_of_string "abcd"), (list_ascii_of_string "efgh").
    eexists. split; vm_compute; reflexivity.
  - exists (list_ascii_of_string "abc"), (list_ascii_of_string "def").
    eexists. split; vm_compute; reflexivity.
  - exists (list_ascii_of_string "a"), (list_ascii_of_string "b").
    eexists. split; vm_compute; reflexivity.
  - exists (list_ascii_of_string "ab"), (list_ascii_of_string "a").
    eexists. split; vm_compute; reflexivity.
  - by apply elem_of_nil in Hin.
Qed.

Lemma every_category_is_reachable_L :
  ∃ (name1 name2 : list ascii) s,
    run_submitted 5 name1 name2 = Ok (Shown s) ∧ result_letter s = "L"%char.
Proof.
  apply (every_category_is_reachable "L"%char). vm_compute. set_solver.
Defined.

(** ** More on the normalizer, on the code points below 256 *)

Module Latin1Extras.

Lemma lower_lower (c : ascii) : Latin1.lower (Latin1.lower c) = Latin1.lower c.
Proof. destruct c as [[] [] [] [] [] [] [] []]; reflexivity. Qed.

Lemma sanitize_app (name1 name2 : list ascii) :
  sanitize (name1 ++ name2) = sanitize name1 ++ sanitize name2.
Proof. unfold sanitize. simpl. by rewrite map_app, filter_app. Qed.

Lemma sanitize_fixed (name : list ascii) :
  Forall (λ c, Latin1.isalpha c = true ∧ Latin1.lower c = c) name →
  sanitize name = name.
Proof.
  induction 1 as [|c name [Halpha Hlower] _ IH]; [done|].
  change (c :: name) with ([c] ++ name). rewrite sanitize_app, IH.
  unfold sanitize. simpl. rewrite Hlower, filter_cons. simpl.
  by rewrite Halpha.
Qed.

Lemma sanitize_lowercase_letters (name : list ascii) :
  Forall (λ c, Latin1.isalpha c = true ∧ Latin1.lower c = c) (sanitize name).
Proof.
  rewrite Latin1Facts.sanitize_filter_then_lower.
  induction name as [|c name IH]; [constructor|].
  rewrite filter_cons. destruct (Latin1.isalpha c) eqn:Halpha; simpl; [|done].
  constructor; [|done].
  by rewrite Latin1Facts.isalpha_lower, lower_lower.
Qed.

End Latin1Extras.

(** X14: what the normalizer returns is made of lowercase alphabetic
    characters only, and normalizing it again changes nothing. *)
Theorem sanitize_is_idempotent (name : list ascii) :
  Forall (λ c, Latin1.isalpha c = true ∧ Latin1.lower c = c) (sanitize name) ∧
  sanitize (sanitize name) = sanitize name.
Proof.
  split; [apply Latin1Extras.sanitize_lowercase_letters|].
  apply Latin1Extras.sanitize_fixed, Latin1Extras.sanitize_lowercase_letters.
Qed.

(** X15: the normalizer works character by character: it distributes over
    concatenation, it returns the empty sequence on the empty string, and its
    result is never longer than its input. *)
Theorem sanitize_is_letter_by_letter (name1 name2 : list ascii) :
  sanitize (name1 ++ name2) = sanitize name1 ++ sanitize name2 ∧
  sanitize ([] : list ascii) = [] ∧
  (length (sanitize name1) ≤ length name1)%nat.
Proof.
  split_and!; [apply Latin1Extras.sanitize_app | done |].
  unfold sanitize. simpl.
  etrans; [apply length_filter|]. by rewrite length_map.
Qed.

(** X16: case, spaces, digits and punctuation in the two names never change
    what the page answers: it gives the same outcome on the names as typed
    and on their normalized forms. *)
Theorem page_ignores_case_and_non_letters (fuel : nat) (name1 name2 : list ascii) :
  run_submitted fuel (sanitize name1) (sanitize name2)
  = run_submitted fuel name1 name2.
Proof.
  unfold run_submitted.
  by rewrite !(Latin1Extras.sanitize_fixed _
                 (Latin1Extras.sanitize_lowercase_letters _)).
Qed.

(** ** What the eliminator draws *)

Section EliminatorDraws.
Context (count : Z) (flames_placeholder caption_placeholder : placeholder).

Lemma length_counting_animation (flames : list ascii) (n : nat) :
  length (counting_animation count flames n flames_placeholder caption_placeholder)
  = (2 * Z.to_nat count)%nat.
Proof.
  unfold counting_animation. rewrite <- (length_seqZ 1 count).
  induction (seqZ 1 count) as [|num nums IH]; [done|].
  rewrite bind_cons, length_app, IH. simpl. lia.
Qed.



Lemma loop_body_ui_split (before after steps : list ascii) (x : ascii) :
  removal_index count (length (before ++ x :: after)) = Z.of_nat (length before) →
  loop_body_ui count (before ++ x :: after) steps
               flames_placeholder caption_placeholder
  = Ok (after ++ before, steps ++ [x],
        counting_animation count (before ++ x :: after)
          (length (before ++ x :: after)) flames_placeholder caption_placeholder
        ++ [(caption_placeholder, strike_caption x)]).
Proof.
  intros Hidx. unfold loop_body_ui. rewrite Hidx, pop_middle. cbn.
  rewrite slice_from_app, slice_to_app.
  destruct (decide (0 < length (before ++ after))%nat) as [|Hlen]; [done|].
  assert (before ++ after = []) as Hnil by (apply length_zero_iff_nil; lia).
  apply app_eq_nil in Hnil as [-> ->]. done.
Qed.

(** The loop with its drawing returns what the loop alone returns, and draws
    one round for each letter it removes. *)
Lemma while_loop_ui_run (m : nat) :
  ∀ flames steps,
    length flames = S m →
    ∃ final steps' rounds,
      (∀ fuel drawn, (m ≤ fuel)%nat →
         while_loop_ui fuel count flames steps
                       flames_placeholder caption_placeholder drawn
         = Ok ([final], steps ++ steps', drawn ++ mjoin rounds)) ∧
      (∀ fuel, (m ≤ fuel)%nat →
         while_loop fuel count flames steps = Ok ([final], steps ++ steps')) ∧
      Forall2 (is_round count flames_placeholder caption_placeholder)
              steps' rounds.
Proof.
  induction m as [|m IH]; intros flames steps Hlen.
  - destruct flames as [|final [|? ?]]; simplify_eq/=.
    exists final, [], []. rewrite !app_nil_r. split_and!; [| |constructor].
    + intros fuel drawn _. destruct fuel; simpl; by rewrite app_nil_r.
    + intros fuel _. by destruct fuel.
  - destruct (removal_split count flames) as (before & x & after & -> & Hk); [lia|].
    destruct (IH (after ++ before) (steps ++ [x]))
      as (final & steps' & rounds & Hui & Hpure & Hrounds).
    { rewrite length_app in *. simpl in *. lia. }
    eexists final, (x :: steps'), (_ :: rounds).
    rewrite <- (assoc_L (++) steps [x] steps') in *.
    split_and!.
    + intros [|fuel] drawn Hfuel; [lia|]. simpl.
      destruct (decide (1 < length (before ++ x :: after))%nat); [|lia].
      rewrite loop_body_ui_split by done. cbn.
      rewrite Hui by lia. by rewrite <- (assoc_L (++)).
    + intros [|fuel] Hfuel; [lia|]. simpl.
      destruct (decide (1 < length (before ++ x :: after))%nat); [|lia].
      rewrite loop_body_split by done. cbn. apply Hpure. lia.
    + constructor; [|done]. by exists before, after.
Qed.

Lemma is_round_length (x : ascii) (round : list ui_write) :
  is_round count flames_placeholder caption_placeholder x round →
  length round = S (2 * Z.to_nat count) ∧
  round !! (2 * Z.to_nat count)%nat = Some (caption_placeholder, strike_caption x).
Proof.
  intros (before & after & _ & ->).
  rewrite length_app, length_counting_animation. simpl. split; [lia|].
  rewrite lookup_app_r; rewrite length_counting_animation; [|lia].
  by rewrite Nat.sub_diag.
Qed.

(** The strike captions sit at the end of each round, in removal order. *)
Lemma rounds_strikes (steps : list ascii) (rounds : list (list ui_write)) :
  Forall2 (is_round count flames_placeholder caption_placeholder) steps rounds →
  length (mjoin rounds) = (length steps * S (2 * Z.to_nat count))%nat ∧
  ∀ k x, steps !! k = Some x →
    mjoin rounds !! (k * S (2 * Z.to_nat count) + 2 * Z.to_nat count)%nat
    = Some (caption_placeholder, strike_caption x).
Proof.
  induction 1 as [|x round steps rounds Hround _ [IHlen IHat]].
  - split; [done|]. intros k x Hk. by rewrite lookup_nil in Hk.
  - destruct (is_round_length x round Hround) as [Hlen Hlast].
    change (mjoin (round :: rounds)) with (round ++ mjoin rounds).
    rewrite length_app, IHlen, Hlen. split; [simpl; lia|].
    intros [|k] y Hk; simplify_eq/=.
    + rewrite lookup_app_l by lia. done.
    + rewrite lookup_app_r by lia. rewrite <- (IHat k y Hk). f_equal. lia.
Qed.

End EliminatorDraws.



Section EliminatorDrawsClaims.
Context (count : Z) (flames_placeholder caption_placeholder : placeholder).

Lemma eliminate_ui_run :
  ∃ final steps rounds,
    (∀ fuel, (5 ≤ fuel)%nat →
       eliminate_flames_animation_ui fuel count
         flames_placeholder caption_placeholder
       = Ok (final, steps, mjoin rounds)) ∧
    (∀ fuel, (5 ≤ fuel)%nat →
       eliminate_flames_animation fuel count = Ok (final, steps)) ∧
    length steps = 5%nat ∧
    Forall2 (is_round count flames_placeholder caption_placeholder) steps rounds.
Proof.
  destruct (while_loop_ui_run count flames_placeholder caption_placeholder
              5 FLAMES []) as (final & steps & rounds & Hui & Hpure & Hrounds);
    [done|].
  exists final, steps, rounds. split_and!; [| | |done].
  - intros fuel Hfuel. unfold eliminate_flames_animation_ui.
    by rewrite (Hui fuel [] Hfuel).
  - intros fuel Hfuel. unfold eliminate_flames_animation.
    by rewrite (Hpure fuel Hfuel).
  - destruct (eliminate_run count) as (final' & steps' & Hrun & Hlen & _).
    pose proof (Hrun 5%nat (le_n _)) as E.
    unfold eliminate_flames_animation in E.
    rewrite (Hpure 5%nat (le_n _)) in E. cbn in E. by simplify_eq.
Qed.



End EliminatorDrawsClaims.



(** ** What the page draws while it crosses letters out *)

(** X20: [build_display_html] pairs characters and flags with [zip]: it
    draws as many letters as the shorter of its two arguments has, ignores
    what is left of the longer one without an error, and returns an empty
    [div] when either is empty. *)
Theorem display_stops_at_the_shorter_argument
    (chars : list ascii) (removed_flags : list bool) :
  build_display_html chars removed_flags
  = build_display_html (take (length removed_flags) chars)
                       (take (length chars) removed_flags) ∧
  build_display_html [] removed_flags = "<div></div>" ∧
  build_display_html chars [] = "<div></div>".
Proof.
  unfold build_display_html. split_and!.
  - by rewrite zip_with_take_both.
  - done.
  - by destruct chars.
Qed.

Lemma animate_crosses_ui_same (ps : list (nat * nat)) (a_chars b_chars : list ascii)
    (ra rb : list bool) :
  (∀ i j, (i, j) ∈ ps → ra !! i = Some true ∧ rb !! j = Some true) →
  animate_crosses_ui ps a_chars b_chars ra rb
  = Ok (ra, rb, mjoin (replicate (length ps) (cross_frame a_chars b_chars ra rb))).
Proof.
  induction ps as [|[i j] ps IH]; intros Hmarked; [done|]. simpl.
  destruct (Hmarked i j) as [Hi Hj]; [left|].
  unfold Py.setitem.
  destruct (decide (i < length ra)%nat) as [|Hout];
    [|by apply lookup_lt_Some in Hi]. cbn.
  destruct (decide (j < length rb)%nat) as [|Hout];
    [|by apply lookup_lt_Some in Hj]. cbn.
  rewrite !list_insert_id by done. rewrite IH; [done|].
  intros i' j' Hin. apply Hmarked. by right.
Qed.

(** X21: the crossing animation does not cross letters out one pair at a
    time.  The matcher hands the page flags that are all set already, so each
    of the redraws, one per pair, shows the same two pictures with every
    matched letter struck. *)
Theorem every_redraw_shows_all_crosses (a_chars b_chars : list ascii) :
  ∃ ps ra rb,
    find_common_pairs a_chars b_chars = Ok (ps, ra, rb) ∧
    animate_crosses_ui ps a_chars b_chars ra rb
    = Ok (ra, rb,
          mjoin (replicate (length ps) (cross_frame a_chars b_chars ra rb))).
Proof.
  destruct (find_common_pairs_excess a_chars b_chars)
    as (ps & ra & rb & Hrun & Hinv & _).
  exists ps, ra, rb. split; [done|].
  destruct Hinv as [_ _ _ Hma Hmb _ _ _ _ _]. simpl in *.
  apply animate_crosses_ui_same. intros i j Hin. split.
  - apply Hma, list_elem_of_fmap. by exists (i, j).
  - apply Hmb, list_elem_of_fmap. by exists (i, j).
Qed.

Lemma length_join_replicate {A : Type} (n : nat) (l : list A) :
  length (mjoin (replicate n l)) = (n * length l)%nat.
Proof.
  induction n as [|n IH]; [done|].
  change (mjoin (replicate (S n) l)) with (l ++ mjoin (replicate n l)).
  rewrite length_app, IH. simpl. lia.
Qed.

Lemma remaining_after_crossing_ui_total (a_chars b_chars : list ascii) :
  ∃ n matched drawn,
    remaining_after_crossing_ui a_chars b_chars = Ok (n, drawn) ∧
    remaining_after_crossing a_chars b_chars = Ok n ∧
    length drawn = (3 + 3 * matched)%nat ∧
    (n + 2 * matched)%nat = (length a_chars + length b_chars)%nat.
Proof.
  destruct (find_common_pairs_excess a_chars b_chars)
    as (ps & ra & rb & Hrun & Hinv & _).
  exists (count_unremoved ra + count_unremoved rb)%nat, (length ps).
  unfold remaining_after_crossing_ui, remaining_after_crossing.
  rewrite Hrun. cbn.
  destruct Hinv as [_ _ _ Hma Hmb _ _ _ Hca Hcb]. simpl in *.
  assert (∀ i j, (i, j) ∈ ps → ra !! i = Some true ∧ rb !! j = Some true)
    as Hmarked.
  { intros i j Hin. split.
    - apply Hma, list_elem_of_fmap. by exists (i, j).
    - apply Hmb, list_elem_of_fmap. by exists (i, j). }
  rewrite animate_crosses_ui_same, animate_crosses_same by done. cbn.
  eexists. split_and!; [done..| |lia].
  simpl. rewrite length_app, length_join_replicate. simpl. lia.
Qed.

(** Taking the drawing away from the loop gives the loop of the first part. *)
Lemma loop_body_ui_erase (count : Z) (flames steps : list ascii)
    (fp cp : placeholder) flames' steps' round :
  loop_body_ui count flames steps fp cp = Ok (flames', steps', round) →
  loop_body count flames steps = Ok (flames', steps').
Proof.
  unfold loop_body_ui, loop_body.
  destruct (Py.pop flames _) as [[x rest]|]; [|done]. cbn.
  intros; by simplify_eq.
Qed.

Lemma while_loop_ui_erase (count : Z) (fp cp : placeholder) (fuel : nat) :
  ∀ flames steps drawn flames' steps' drawn',
    while_loop_ui fuel count flames steps fp cp drawn = Ok (flames', steps', drawn') →
    while_loop fuel count flames steps = Ok (flames', steps').
Proof.
  induction fuel as [|fuel IH]; intros flames steps drawn flames' steps' drawn' Hrun;
    simpl in *.
  - destruct (decide (1 < length flames)%nat); [done|]. by simplify_eq.
  - destruct (decide (1 < length flames)%nat); [|by simplify_eq].
    destruct (loop_body_ui count flames steps fp cp)
      as [[[flames1 steps1] round]|] eqn:Hbody; [|done].
    rewrite (loop_body_ui_erase _ _ _ _ _ _ _ _ Hbody). cbn in *. by eapply IH.
Qed.

Lemma eliminate_ui_erase (count : Z) (fp cp : placeholder) (fuel : nat)
    final steps drawn :
  eliminate_flames_animation_ui fuel count fp cp = Ok (final, steps, drawn) →
  eliminate_flames_animation fuel count = Ok (final, steps).
Proof.
  unfold eliminate_flames_animation_ui, eliminate_flames_animation.
  destruct (while_loop_ui fuel count FLAMES [] fp cp [])
    as [[[flames' steps'] drawn']|] eqn:Hrun; [|done].
  rewrite (while_loop_ui_erase _ _ _ _ _ _ _ _ _ _ Hrun). cbn.
  destruct (Py.getitem flames' 0%nat); [|done]. cbn. intros; by simplify_eq.
Qed.

(** Putting the drawing back: whenever the loop of the first part returns,
    the loop with its drawing returns the same. *)
Lemma loop_body_ui_complete (count : Z) (flames steps : list ascii)
    (fp cp : placeholder) flames' steps' :
  loop_body count flames steps = Ok (flames', steps') →
  ∃ round, loop_body_ui count flames steps fp cp = Ok (flames', steps', round).
Proof.
  unfold loop_body_ui, loop_body.
  destruct (Py.pop flames _) as [[x rest]|]; [|done]. cbn.
  intros; simplify_eq. by eexists.
Qed.

Lemma while_loop_ui_complete (count : Z) (fp cp : placeholder) (fuel : nat) :
  ∀ flames steps drawn flames' steps',
    while_loop fuel count flames steps = Ok (flames', steps') →
    ∃ drawn',
      while_loop_ui fuel count flames steps fp cp drawn = Ok (flames', steps', drawn').
Proof.
  induction fuel as [|fuel IH]; intros flames steps drawn flames' steps' Hrun;
    simpl in *.
  - destruct (decide (1 < length flames)%nat); [done|]. simplify_eq. by eexists.
  - destruct (decide (1 < length flames)%nat); [|simplify_eq; by eexists].
    destruct (loop_body count flames steps) as [[flames1 steps1]|] eqn:Hbody;
      [|done].
    destruct (loop_body_ui_complete _ _ _ fp cp _ _ Hbody) as [round ->].
    cbn in *. by apply IH.
Qed.

Lemma eliminate_ui_complete (count : Z) (fp cp : placeholder) (fuel : nat)
    final steps :
  eliminate_flames_animation fuel count = Ok (final, steps) →
  ∃ drawn,
    eliminate_flames_animation_ui fuel count fp cp = Ok (final, steps, drawn).
Proof.
  unfold eliminate_flames_animation_ui, eliminate_flames_animation.
  destruct (while_loop fuel count FLAMES []) as [[flames' steps']|] eqn:Hrun;
    [|done].
  destruct (while_loop_ui_complete count fp cp fuel _ _ [] _ _ Hrun) as [drawn ->].
  cbn. destruct (Py.getitem flames' 0%nat); [|done]. cbn.
  intros; simplify_eq. by eexists.
Qed.

(** The rounds that the loop draws, each over the working sequence that the
    round before it left. *)
Lemma while_loop_ui_rounds (count : Z) (fp cp : placeholder) (m : nat) :
  ∀ flames steps,
    length flames = S m →
    ∃ final removed rounds,
      rounds_from count fp cp flames removed rounds [final] ∧
      ∀ fuel drawn, (m ≤ fuel)%nat →
        while_loop_ui fuel count flames steps fp cp drawn
        = Ok ([final], steps ++ removed, drawn ++ mjoin rounds).
Proof.
  induction m as [|m IH]; intros flames steps Hlen.
  - destruct flames as [|final [|? ?]]; simplify_eq/=.
    exists final, [], []. split; [by constructor|].
    intros fuel drawn _. rewrite !app_nil_r. by destruct fuel.
  - destruct (removal_split count flames) as (before & x & after & -> & Hk); [lia|].
    destruct (IH (after ++ before) (steps ++ [x]))
      as (final & removed & rounds & Hrounds & Hui).
    { rewrite length_app in *. simpl in *. lia. }
    eexists final, (x :: removed), (_ :: rounds). split.
    + constructor; [lia | done | done].
    + intros [|fuel] drawn Hfuel; [lia|]. simpl.
      destruct (decide (1 < length (before ++ x :: after))%nat); [|lia].
      rewrite loop_body_ui_split by done. cbn.
      rewrite Hui by lia. by rewrite <- !(assoc_L (++)).
Qed.

Lemma rounds_from_is_round (count : Z) (fp cp : placeholder)
    flames removed rounds final :
  rounds_from count fp cp flames removed rounds final →
  Forall2 (is_round count fp cp) removed rounds.
Proof.
  induction 1 as [|before x after removed rounds final _ Hk _ IH]; constructor;
    [|done].
  by exists before, after.
Qed.

Lemma rounds_from_lengths (count : Z) (fp cp : placeholder)
    flames removed rounds final :
  rounds_from count fp cp flames removed rounds final →
  length rounds = length removed ∧
  Forall (λ round, length round = S (2 * Z.to_nat count)) rounds.
Proof.
  induction 1 as [|before x after removed rounds final _ Hk _ [IHl IHf]].
  - split; [done | constructor].
  - split; [simpl; by rewrite IHl|]. constructor; [|done].
    rewrite length_app, length_counting_animation. simpl. lia.
Qed.

(** X17: drawing never changes what the eliminator returns.  Whatever the
    count, it draws five rounds.  A round counts over the working sequence
    that the round before it left, F L A M E S for the first: one frame,
    with the letter at (num - 1) mod n highlighted, and one caption for
    every number num from 1 to the count; then comes the caption that
    announces the letter struck, the one at the removal index.  So every
    round has 2 * max(count, 0) + 1 writes, and the strike captions come in
    the order of the returned removal list. *)
Theorem eliminator_draws_five_rounds
    (count : Z) (flames_placeholder caption_placeholder : placeholder) :
  ∃ final steps rounds,
    (∀ fuel, (5 ≤ fuel)%nat →
       eliminate_flames_animation_ui fuel count
         flames_placeholder caption_placeholder
       = Ok (final, steps, mjoin rounds)) ∧
    (∀ fuel, (5 ≤ fuel)%nat →
       eliminate_flames_animation fuel count = Ok (final, steps)) ∧
    rounds_from count flames_placeholder caption_placeholder
                FLAMES steps rounds [final] ∧
    (∀ (flames : list ascii) (n : nat),
       counting_animation count flames n flames_placeholder caption_placeholder
       = num ← seqZ 1 count;
         [ (flames_placeholder,
            frame_html (frame_display flames ((num - 1) `mod` Z.of_nat n)));
           (caption_placeholder, "Counting... <b>" +:+ pretty num +:+ "</b>") ]) ∧
    length rounds = 5%nat ∧
    Forall (λ round, length round = S (2 * Z.to_nat count)) rounds ∧
    length (mjoin rounds) = (5 * S (2 * Z.to_nat count))%nat ∧
    ∀ k x, steps !! k = Some x →
      mjoin rounds !! (k * S (2 * Z.to_nat count) + 2 * Z.to_nat count)%nat
      = Some (caption_placeholder, strike_caption x).
Proof.
  destruct (while_loop_ui_rounds count flames_placeholder caption_placeholder
              5 FLAMES []) as (final & steps & rounds & Hrounds & Hui); [done|].
  assert (∀ fuel, (5 ≤ fuel)%nat →
            eliminate_flames_animation_ui fuel count
              flames_placeholder caption_placeholder
            = Ok (final, steps, mjoin rounds)) as Hrun.
  { intros fuel Hfuel. unfold eliminate_flames_animation_ui.
    by rewrite (Hui fuel [] Hfuel). }
  assert (∀ fuel, (5 ≤ fuel)%nat →
            eliminate_flames_animation fuel count = Ok (final, steps)) as Hpure.
  { intros fuel Hfuel. by eapply eliminate_ui_erase, Hrun. }
  assert (length steps = 5%nat) as Hlen.
  { destruct (eliminate_run count) as (final' & steps' & Hrun' & Hlen & _).
    pose proof (Hrun' 5%nat (le_n _)) as E.
    rewrite (Hpure 5%nat (le_n _)) in E. by simplify_eq. }
  destruct (rounds_from_lengths _ _ _ _ _ _ _ Hrounds) as [Hn Hall].
  destruct (rounds_strikes count flames_placeholder caption_placeholder
              steps rounds (rounds_from_is_round _ _ _ _ _ _ _ Hrounds))
    as [Hdrawn Hat].
  exists final, steps, rounds. split_and!; try done.
  - by rewrite Hn.
  - by rewrite Hdrawn, Hlen.
Qed.

Lemma run_submitted_ui_invalid (fuel : nat) (name1 name2 : list ascii) :
  sanitize name1 = [] ∨ sanitize name2 = [] →
  run_submitted_ui fuel name1 name2 = Ok (InvalidInput, []).
Proof.
  intros Hempty. unfold run_submitted_ui.
  destruct (decide (sanitize name1 = [])) as [E1|N1].
  - by rewrite (bool_decide_eq_true_2 _ E1).
  - destruct Hempty as [?|E2]; [done|].
    rewrite (bool_decide_eq_true_2 _ E2). by rewrite orb_true_r.
Qed.

(** On two names that both have a letter the page matches, draws the
    crossing, eliminates and draws the rounds. *)
Lemma run_submitted_ui_valid (fuel : nat) (name1 name2 : list ascii) :
  sanitize name1 ≠ [] → sanitize name2 ≠ [] → (5 ≤ fuel)%nat →
  ∃ s matched drawn1 drawn2,
    run_submitted_ui fuel name1 name2 = Ok (Shown s, drawn1 ++ drawn2) ∧
    run_submitted fuel name1 name2 = Ok (Shown s) ∧
    remaining_after_crossing_ui (sanitize name1) (sanitize name2)
    = Ok (remaining_count s, drawn1) ∧
    eliminate_flames_animation_ui fuel (Z.of_nat (remaining_count s))
      flames_ph caption2_ph
    = Ok (result_letter s, elimination_order s, drawn2) ∧
    length drawn1 = (3 + 3 * matched)%nat ∧
    length drawn2 = (5 * S (2 * remaining_count s))%nat ∧
    (remaining_count s + 2 * matched)%nat
    = (length (sanitize name1) + length (sanitize name2))%nat.
Proof.
  intros N1 N2 Hfuel.
  destruct (remaining_after_crossing_ui_total (sanitize name1) (sanitize name2))
    as (n & matched & drawn1 & Hui & Hpure & Hlen1 & Hsum).
  destruct (eliminate_ui_run (Z.of_nat n) flames_ph caption2_ph)
    as (final & steps & rounds & Hel & Hel' & Hlen & Hrounds).
  destruct (rounds_strikes _ _ _ _ _ Hrounds) as [Hlen2 _].
  destruct (map_result final) as [[title emoji] one_liner] eqn:Hmap.
  exists (Session n steps final title emoji one_liner), matched, drawn1,
    (mjoin rounds).
  simpl. split_and!; try done.
  - unfold run_submitted_ui. rewrite !bool_decide_eq_false_2 by done.
    simpl. rewrite Hui. cbn. rewrite (Hel fuel Hfuel). cbn. by rewrite Hmap.
  - rewrite run_submitted_valid by done.
    cbv [char_eq_dec Latin1.py_str] in *. rewrite Hpure. cbn.
    rewrite (Hel' fuel Hfuel). cbn. by rewrite Hmap.
  - by apply Hel.
  - rewrite Hlen2, Hlen, Nat2Z.id. done.
Qed.

Lemma run_submitted_ui_erase (fuel : nat) (name1 name2 : list ascii) out drawn :
  run_submitted_ui fuel name1 name2 = Ok (out, drawn) →
  run_submitted fuel name1 name2 = Ok out ∧
  (out = InvalidInput ↔ drawn = []) ∧
  (out = InvalidInput ↔ sanitize name1 = [] ∨ sanitize name2 = []).
Proof.
  unfold run_submitted_ui, run_submitted. intros Hrun.
  destruct (bool_decide (sanitize name1 = []) || bool_decide (sanitize name2 = []))
    eqn:Hvalid.
  - simplify_eq. split_and!; [done..|]. split; [|done]. intros _.
    apply orb_true_iff in Hvalid as [?%bool_decide_eq_true|?%bool_decide_eq_true];
      [by left | by right].
  - destruct (remaining_after_crossing_ui_total (sanitize name1) (sanitize name2))
      as (n & matched & drawn1 & Hui & Hpure & Hlen & _).
    rewrite Hui in Hrun. cbv [char_eq_dec Latin1.py_str] in *.
    rewrite Hpure. cbn in *.
    destruct (eliminate_flames_animation_ui fuel (Z.of_nat n) flames_ph caption2_ph)
      as [[[final steps] drawn2]|] eqn:Hel; [|done].
    rewrite (eliminate_ui_erase _ _ _ _ _ _ _ Hel). cbn in *.
    destruct (map_result final) as [[title emoji] one_liner].
    simplify_eq. split_and!; [done| |].
    + split; [done|]. intros Hnil%(f_equal length).
      rewrite length_app, Hlen in Hnil. simpl in Hnil. lia.
    + split; [done|]. intros Hempty.
      apply orb_false_iff in Hvalid as [N1%bool_decide_eq_false N2%bool_decide_eq_false].
      by destruct Hempty.
Qed.

Lemma run_submitted_ui_complete (fuel : nat) (name1 name2 : list ascii) out :
  run_submitted fuel name1 name2 = Ok out →
  ∃ drawn, run_submitted_ui fuel name1 name2 = Ok (out, drawn).
Proof.
  unfold run_submitted_ui, run_submitted. intros Hrun.
  destruct (bool_decide (sanitize name1 = []) || bool_decide (sanitize name2 = []));
    [simplify_eq; by eexists|].
  destruct (remaining_after_crossing_ui_total (sanitize name1) (sanitize name2))
    as (n & matched & drawn1 & Hui & Hpure & _).
  rewrite Hui. cbv [char_eq_dec Latin1.py_str] in *.
  rewrite Hpure in Hrun. cbn in *.
  destruct (eliminate_flames_animation fuel (Z.of_nat n))
    as [[final steps]|] eqn:Hel; [|done].
  destruct (eliminate_ui_complete _ flames_ph caption2_ph _ _ _ Hel) as [drawn2 ->].
  cbn in *. destruct (map_result final) as [[title emoji] one_liner].
  simplify_eq. by eexists.
Qed.

(** C4: the page answers InvalidInput exactly when one of the two names
    normalizes to the empty sequence, that is when no character of its
    lowercased text is alphabetic, and on every other input it shows a
    result as soon as the fuel covers the five removals; this holds for any
    tables of [str.lower] and [str.isalpha].  On an invalid input nothing is
    performed: the page with its drawing ends on InvalidInput with no write
    to any placeholder, so neither the pictures of the two names that follow
    the matching, nor a crossing, a counting frame or a strike is drawn, and
    this is the only case in which nothing is drawn.  On a valid input the
    matching and the elimination are both run and drawn. *)
Theorem invalid_input_iff_a_name_without_letters :
  (∀ (char : Type) (H : PyStr char) (fuel : nat) (name1 name2 : list char),
     (run_submitted fuel name1 name2 = Ok InvalidInput
      ↔ sanitize name1 = [] ∨ sanitize name2 = []) ∧
     (∀ name : list char,
        sanitize name = []
        ↔ Forall (λ ch, isalpha ch = false) (str_lower name)) ∧
     (sanitize name1 ≠ [] → sanitize name2 ≠ [] → (5 ≤ fuel)%nat →
      ∃ s, run_submitted fuel name1 name2 = Ok (Shown s))) ∧
  (∀ (fuel : nat) (name1 name2 : list ascii),
     (run_submitted_ui fuel name1 name2 = Ok (InvalidInput, [])
      ↔ sanitize name1 = [] ∨ sanitize name2 = []) ∧
     (∀ out drawn,
        run_submitted_ui fuel name1 name2 = Ok (out, drawn) →
        run_submitted fuel name1 name2 = Ok out ∧
        (out = InvalidInput ↔ drawn = [])) ∧
     (sanitize name1 ≠ [] → sanitize name2 ≠ [] → (5 ≤ fuel)%nat →
      ∃ s drawn1 drawn2,
        run_submitted_ui fuel name1 name2 = Ok (Shown s, drawn1 ++ drawn2) ∧
        remaining_after_crossing_ui (sanitize name1) (sanitize name2)
        = Ok (remaining_count s, drawn1) ∧
        eliminate_flames_animation_ui fuel (Z.of_nat (remaining_count s))
          flames_ph caption2_ph
        = Ok (result_letter s, elimination_order s, drawn2) ∧
        drawn1 ≠ [] ∧ drawn2 ≠ [])).
Proof.
  split.
  - intros char H fuel name1 name2. split_and!.
    + apply run_submitted_invalid_iff.
    + apply sanitize_empty.
    + apply run_submitted_shows.
  - intros fuel name1 name2. split_and!.
    + split; [|apply run_submitted_ui_invalid].
      intros Hrun. by apply (run_submitted_ui_erase _ _ _ _ _ Hrun).
    + intros out drawn Hrun.
      destruct (run_submitted_ui_erase _ _ _ _ _ Hrun) as (Hpure & Hdrawn & _).
      done.
    + intros N1 N2 Hfuel.
      destruct (run_submitted_ui_valid fuel name1 name2 N1 N2 Hfuel)
        as (s & matched & drawn1 & drawn2 & Hui & _ & Hcross & Hel & Hl1 & Hl2 & _).
      exists s, drawn1, drawn2. split_and!; [done..| |].
      * intros ->. simpl in Hl1. lia.
      * intros ->. simpl in Hl2. lia.
Qed.

Lemma invalid_input_iff_a_name_without_letters_blank :
  (run_submitted_ui 5 (list_ascii_of_string " 42 ") (list_ascii_of_string "eve")
   = Ok (InvalidInput, [])
   ↔ sanitize (list_ascii_of_string " 42 ") = []
     ∨ sanitize (list_ascii_of_string "eve") = []) ∧
  run_submitted_ui 5 (list_ascii_of_string " 42 ") (list_ascii_of_string "eve")
  = Ok (InvalidInput, []) ∧
  ∃ s drawn1 drawn2,
    run_submitted_ui 5 (list_ascii_of_string "steve") (list_ascii_of_string "eve")
    = Ok (Shown s, drawn1 ++ drawn2) ∧
    remaining_after_crossing_ui (sanitize (list_ascii_of_string "steve"))
                                (sanitize (list_ascii_of_string "eve"))
    = Ok (remaining_count s, drawn1) ∧
    eliminate_flames_animation_ui 5 (Z.of_nat (remaining_count s))
      flames_ph caption2_ph
    = Ok (result_letter s, elimination_order s, drawn2) ∧
    drawn1 ≠ [] ∧ drawn2 ≠ [].
Proof.
  pose proof (proj2 invalid_input_iff_a_name_without_letters) as Hpage.
  split_and!.
  - apply (Hpage 5%nat).
  - apply (Hpage 5%nat). left. vm_compute. reflexivity.
  - apply (Hpage 5%nat (list_ascii_of_string "steve") (list_ascii_of_string "eve")).
    + vm_compute. discriminate.
    + vm_compute. discriminate.
    + lia.
Defined.

(** X22: the submitted branch with its drawing answers what the branch alone
    answers, in both directions and for every fuel, and it returns whenever
    the fuel covers the five removals.  It writes to its placeholders exactly
    when the input is valid: with a name without a letter nothing is drawn,
    and a shown result comes with 3 + 3 * matched writes for the crossing
    and 5 * (2 * remaining + 1) for the elimination. *)
Theorem page_draws_iff_input_is_valid (fuel : nat) (name1 name2 : list ascii) :
  (∀ out,
     run_submitted fuel name1 name2 = Ok out
     ↔ ∃ drawn, run_submitted_ui fuel name1 name2 = Ok (out, drawn)) ∧
  ((5 ≤ fuel)%nat →
   ∃ out drawn, run_submitted_ui fuel name1 name2 = Ok (out, drawn)) ∧
  (∀ out drawn,
     run_submitted_ui fuel name1 name2 = Ok (out, drawn) →
     (out = InvalidInput ↔ drawn = []) ∧
     (out = InvalidInput ↔ sanitize name1 = [] ∨ sanitize name2 = [])) ∧
  (sanitize name1 ≠ [] → sanitize name2 ≠ [] → (5 ≤ fuel)%nat →
   ∃ s matched drawn,
     run_submitted_ui fuel name1 name2 = Ok (Shown s, drawn) ∧
     length drawn = (3 + 3 * matched + 5 * S (2 * remaining_count s))%nat ∧
     (remaining_count s + 2 * matched)%nat
     = (length (sanitize name1) + length (sanitize name2))%nat).
Proof.
  split_and!.
  - intros out. split; [apply run_submitted_ui_complete|].
    intros [drawn Hrun]. by apply (run_submitted_ui_erase _ _ _ _ _ Hrun).
  - intros Hfuel.
    destruct (decide (sanitize name1 = [] ∨ sanitize name2 = [])) as [Hinv|Hval].
    + exists InvalidInput, []. by apply run_submitted_ui_invalid.
    + assert (sanitize name1 ≠ []) as N1 by (intros E; apply Hval; by left).
      assert (sanitize name2 ≠ []) as N2 by (intros E; apply Hval; by right).
      destruct (run_submitted_ui_valid fuel name1 name2 N1 N2 Hfuel)
        as (s & matched & drawn1 & drawn2 & Hui & _).
      by eexists _, _.
  - intros out drawn Hrun.
    by destruct (run_submitted_ui_erase _ _ _ _ _ Hrun) as (_ & ? & ?).
  - intros N1 N2 Hfuel.
    destruct (run_submitted_ui_valid fuel name1 name2 N1 N2 Hfuel)
      as (s & matched & drawn1 & drawn2 & Hui & _ & _ & _ & Hl1 & Hl2 & Hsum).
    exists s, matched, (drawn1 ++ drawn2). split_and!; [done| |done].
    rewrite length_app, Hl1, Hl2. lia.
Qed.

Lemma page_draws_iff_input_is_valid_steve_eve :
  ∃ s matched drawn,
    run_submitted_ui 5 (list_ascii_of_string "steve") (list_ascii_of_string "eve")
    = Ok (Shown s, drawn) ∧
    length drawn = (3 + 3 * matched + 5 * S (2 * remaining_count s))%nat ∧
    (remaining_count s + 2 * matched)%nat
    = (length (sanitize (list_ascii_of_string "steve"))
       + length (sanitize (list_ascii_of_string "eve")))%nat.
Proof.
  apply (page_draws_iff_input_is_valid 5
           (list_ascii_of_string "steve") (list_ascii_of_string "eve")).
  - vm_compute. discriminate.
  - vm_compute. discriminate.
  - lia.
Defined.
